(** * State attestation of the machine emulator

    A shallow embedding of the back Merkle tree
    ([src/back-merkle-tree.cpp]), of the state-access interface
    ([src/emulator/i-state-access.h]) and of the Lua bindings of the
    verifier entry points ([src/clua-machine.cpp]), with the properties
    of the specification that concern them. *)

From Stdlib Require Import ZArith Lia.
From stdpp Require Import base numbers list strings pretty.

Local Open Scope Z_scope.

(** ** Exceptions, and a state monad that can throw

    A method of a C++ object is a computation over the object's fields
    that either returns or throws; what it wrote before throwing stays
    written. *)
Module Cpp.

Inductive exception : Type :=
  | out_of_range (what : string)
  | runtime_error (what : string)
  (** [assert] failed in a build without [NDEBUG] *)
  | assertion_failed
  (** [operator[]] of a [std::vector] outside its size *)
  | vector_out_of_bounds.

Definition M (S E A : Type) : Type := S → (E + A) * S.

Definition ret {S E A} (a : A) : M S E A := λ s, (inr a, s).

Definition bind {S E A B} (m : M S E A) (f : A → M S E B) : M S E B :=
  λ s, match m s with
       | (inr a, s') => f a s'
       | (inl e, s') => (inl e, s')
       end.

Definition throw {S E A} (e : E) : M S E A := λ s, (inl e, s).

Definition gets {S E A} (f : S → A) : M S E A := λ s, (inr (f s), s).

Definition modify {S E} (f : S → S) : M S E unit := λ s, (inr tt, f s).

(** A call that cannot touch the state: its result or its exception. *)
Definition lift {S E A} (r : E + A) : M S E A := λ s, (r, s).

End Cpp.

Import Cpp.

Notation "'let*' x := m 'in' k" := (bind m (λ x, k))
  (at level 10, x name, m at level 100, k at level 200).

(** ** The hasher and the build *)

(** [hasher_type] and [hash_type]: a digest type with byte equality and
    a value-initialised digest, the digest of a pair of digests
    ([get_concat_hash]) and the digest of a word of bytes. *)
Class Hasher (hash : Type) : Type := {
  hash_eq_dec :: EqDecision hash;
  hash_inhabited :: Inhabited hash;
  get_concat_hash : hash → hash → hash;
  get_word_hash : list Byte.byte → hash;
}.

(** What the build fixes: the number of bits of [address_type]
    ([std::numeric_limits<address_type>::digits]) and whether [NDEBUG]
    is defined. *)
Class Build : Type := {
  address_digits : Z;
  NDEBUG : bool;
}.

(** A symbolic hasher: a digest is the term that was hashed, so two
    digests are equal only when they were computed alike. *)
Inductive digest : Type :=
  | Zero
  | Word (w : list Byte.byte)
  | Leaf (n : Z)
  | Concat (l r : digest).

#[global] Instance byte_eq_dec : EqDecision Byte.byte := Byte.byte_eq_dec.

#[global] Instance digest_eq_dec : EqDecision digest.
Proof. solve_decision. Defined.

Definition symbolic_hasher : Hasher digest :=
  {| hash_eq_dec := digest_eq_dec;
     hash_inhabited := populate Zero;
     get_concat_hash := Concat;
     get_word_hash := Word |}.

(** 64-bit addresses, in a build that keeps the assertions. *)
Definition debug_build : Build := {| address_digits := 64; NDEBUG := false |}.

(** ** The back Merkle tree *)
Module BackMerkleTree.

Section back_merkle_tree.
Context {hash : Type} `{!Hasher hash} `{!Build}.

(** Arithmetic of [address_type]: unsigned, modulo [2^digits]. *)
Definition wrap (x : Z) : Z := x mod 2 ^ address_digits.

(** [x & (address_type{1} << i)] as a condition. *)
Definition bit_set (x i : Z) : bool :=
  negb (Z.land x (wrap (Z.shiftl 1 i)) =? 0).

(** [v[i]] of a vector, where it is defined. *)
Definition vector_at {A} (v : list A) (i : Z) : option A :=
  if decide (0 ≤ i) then v !! Z.to_nat i else None.

(** Modelled from the spec: pristine_merkle_tree (pristine-merkle-tree.h
    and its implementation are not among the sources). The table holds,
    for each height from [log2_word_size] to [log2_root_size], the hash of
    the all-zero subtree of that height, built bottom-up from the pristine
    word by equal-child doubling; [get_hash] fails its bounds check outside
    that range. *)
Record pristine_merkle_tree : Type := {
  p_log2_root_size : Z;
  p_log2_word_size : Z;
  m_hashes : list hash;
}.

Fixpoint pristine_levels (n : nat) (h : hash) : list hash :=
  match n with
  | O => []
  | S n' => h :: pristine_levels n' (get_concat_hash h h)
  end.

Definition pristine_word (log2_word_size : Z) : list Byte.byte :=
  replicate (Z.to_nat (2 ^ log2_word_size)) Byte.x00.

Definition pristine_new (log2_root_size log2_word_size : Z) : pristine_merkle_tree :=
  {| p_log2_root_size := log2_root_size;
     p_log2_word_size := log2_word_size;
     m_hashes :=
       pristine_levels (Z.to_nat (Z.max 0 (log2_root_size - log2_word_size + 1)))
         (get_word_hash (pristine_word log2_word_size)) |}.

Definition get_hash (p : pristine_merkle_tree) (log2_size : Z) : exception + hash :=
  if decide (log2_size < p_log2_word_size p ∨ p_log2_root_size p < log2_size) then
    inl (out_of_range "log2_size is out of range")
  else
    match vector_at (m_hashes p) (log2_size - p_log2_word_size p) with
    | Some h => inr h
    | None => inl vector_out_of_bounds
    end.

(** The fields of [back_merkle_tree]. *)
Record back_merkle_tree : Type := {
  m_log2_root_size : Z;
  m_log2_leaf_size : Z;
  m_leaf_count : Z;
  m_max_leaves : Z;
  m_context : list hash;
  m_pristine_hashes : pristine_merkle_tree;
}.

Definition set_leaf_count (n : Z) (t : back_merkle_tree) : back_merkle_tree :=
  {| m_log2_root_size := m_log2_root_size t;
     m_log2_leaf_size := m_log2_leaf_size t;
     m_leaf_count := n;
     m_max_leaves := m_max_leaves t;
     m_context := m_context t;
     m_pristine_hashes := m_pristine_hashes t |}.

Definition set_context (c : list hash) (t : back_merkle_tree) : back_merkle_tree :=
  {| m_log2_root_size := m_log2_root_size t;
     m_log2_leaf_size := m_log2_leaf_size t;
     m_leaf_count := m_leaf_count t;
     m_max_leaves := m_max_leaves t;
     m_context := c;
     m_pristine_hashes := m_pristine_hashes t |}.

(** Methods of the tree. *)
Definition method (A : Type) : Type := M back_merkle_tree exception A.

(** [m_context[i]], read. *)
Definition context_at (i : Z) : method hash :=
  λ t, match vector_at (m_context t) i with
       | Some h => (inr h, t)
       | None => (inl vector_out_of_bounds, t)
       end.

(** [m_context[i] = h]. *)
Definition context_store (i : Z) (h : hash) : method unit :=
  λ t, match vector_at (m_context t) i with
       | Some _ => (inr tt, set_context (<[Z.to_nat i := h]> (m_context t)) t)
       | None => (inl vector_out_of_bounds, t)
       end.

(** [m_pristine_hashes.get_hash(log2_size)]. *)
Definition pristine_hash_at (log2_size : Z) : method hash :=
  λ t, (get_hash (m_pristine_hashes t) log2_size, t).

(** [assert(b)]. *)
Definition c_assert (b : bool) : method unit :=
  if NDEBUG then ret tt else if b then ret tt else throw assertion_failed.

(** The constructor: the member initialisers, then the checks. *)
Definition back_merkle_tree_new (log2_root_size log2_leaf_size log2_word_size : Z)
  : exception + back_merkle_tree :=
  let t :=
    {| m_log2_root_size := log2_root_size;
       m_log2_leaf_size := log2_leaf_size;
       m_leaf_count := 0;
       m_max_leaves := wrap (Z.shiftl 1 (log2_root_size - log2_leaf_size));
       m_context :=
         replicate (Z.to_nat (Z.max 1 (log2_root_size - log2_leaf_size + 1))) inhabitant;
       m_pristine_hashes := pristine_new log2_root_size log2_word_size |} in
  if decide (log2_root_size < 0) then
    inl (out_of_range "log2_root_size is negative")
  else if decide (log2_leaf_size < 0) then
    inl (out_of_range "log2_leaf_size is negative")
  else if decide (log2_word_size < 0) then
    inl (out_of_range "log2_word_size is negative")
  else if decide (log2_leaf_size > log2_root_size) then
    inl (out_of_range "log2_leaf_size is greater than log2_root_size")
  else if decide (log2_word_size > log2_leaf_size) then
    inl (out_of_range "log2_word_size is greater than log2_word_size")
  else if decide (log2_root_size >= address_digits) then
    inl (out_of_range "tree is too large for address type")
  else inr t.

(** The loop of [push_back]: [n] iterations are left before [i <= depth]
    fails; storing [right] is followed by [break]. *)
Fixpoint push_back_loop (n : nat) (i : Z) (right : hash) : method unit :=
  match n with
  | O => ret tt
  | S n' =>
    let* leaf_count := gets m_leaf_count in
    if bit_set leaf_count i then
      let* left := context_at i in
      push_back_loop n' (i + 1) (get_concat_hash left right)
    else
      context_store i right
  end.

Definition push_back (leaf_hash : hash) : method unit :=
  let right := leaf_hash in
  let* leaf_count := gets m_leaf_count in
  let* max_leaves := gets m_max_leaves in
  if decide (leaf_count >= max_leaves) then
    throw (out_of_range "too many leaves")
  else
    let* depth := gets (λ t, m_log2_root_size t - m_log2_leaf_size t) in
    let* _ := push_back_loop (Z.to_nat (depth + 1)) 0 right in
    modify (λ t, set_leaf_count (wrap (m_leaf_count t + 1)) t).

(** The loop of [get_root_hash]. *)
Fixpoint get_root_hash_loop (n : nat) (i : Z) (root : hash) : method hash :=
  match n with
  | O => ret root
  | S n' =>
    let* leaf_count := gets m_leaf_count in
    if bit_set leaf_count i then
      let* left := context_at i in
      get_root_hash_loop n' (i + 1) (get_concat_hash left root)
    else
      let* log2_leaf_size := gets m_log2_leaf_size in
      let* right := pristine_hash_at (log2_leaf_size + i) in
      get_root_hash_loop n' (i + 1) (get_concat_hash root right)
  end.

Definition get_root_hash : method hash :=
  let* leaf_count := gets m_leaf_count in
  let* max_leaves := gets m_max_leaves in
  let* _ := c_assert (bool_decide (leaf_count <= max_leaves)) in
  let* depth := gets (λ t, m_log2_root_size t - m_log2_leaf_size t) in
  if decide (leaf_count < max_leaves) then
    let* log2_leaf_size := gets m_log2_leaf_size in
    let* root := pristine_hash_at log2_leaf_size in
    get_root_hash_loop (Z.to_nat depth) 0 root
  else
    context_at depth.

(** Modelled from the spec: merkle_tree_proof (merkle-tree-proof.h is not
    among the sources). A proof holds the target's address and size, the
    target and root hashes, and one sibling hash per level between target
    and root, index 0 nearest the target; a sibling is set by the size of
    its level. [verify] re-folds the target hash through the siblings,
    bit [i] of [target_address >> log2_target_size] selecting the side of
    the sibling at level [i], and compares the result with the root hash. *)
Record merkle_tree_proof : Type := {
  target_address : Z;
  log2_target_size : Z;
  log2_root_size : Z;
  target_hash : hash;
  root_hash : hash;
  sibling_hashes : list hash;
}.

Definition proof_new (log2_root log2_target : Z) : merkle_tree_proof :=
  {| target_address := 0;
     log2_target_size := log2_target;
     log2_root_size := log2_root;
     target_hash := inhabitant;
     root_hash := inhabitant;
     sibling_hashes := replicate (Z.to_nat (log2_root - log2_target)) inhabitant |}.

Definition set_target_address (a : Z) (p : merkle_tree_proof) : merkle_tree_proof :=
  {| target_address := a;
     log2_target_size := log2_target_size p;
     log2_root_size := log2_root_size p;
     target_hash := target_hash p;
     root_hash := root_hash p;
     sibling_hashes := sibling_hashes p |}.

Definition set_target_hash (h : hash) (p : merkle_tree_proof) : merkle_tree_proof :=
  {| target_address := target_address p;
     log2_target_size := log2_target_size p;
     log2_root_size := log2_root_size p;
     target_hash := h;
     root_hash := root_hash p;
     sibling_hashes := sibling_hashes p |}.

Definition set_root_hash (h : hash) (p : merkle_tree_proof) : merkle_tree_proof :=
  {| target_address := target_address p;
     log2_target_size := log2_target_size p;
     log2_root_size := log2_root_size p;
     target_hash := target_hash p;
     root_hash := h;
     sibling_hashes := sibling_hashes p |}.

Definition set_sibling_hash (h : hash) (log2_size : Z) (p : merkle_tree_proof)
  : exception + merkle_tree_proof :=
  match vector_at (sibling_hashes p) (log2_size - log2_target_size p) with
  | Some _ =>
    inr {| target_address := target_address p;
           log2_target_size := log2_target_size p;
           log2_root_size := log2_root_size p;
           target_hash := target_hash p;
           root_hash := root_hash p;
           sibling_hashes :=
             <[Z.to_nat (log2_size - log2_target_size p) := h]> (sibling_hashes p) |}
  | None => inl (out_of_range "log2_size is out of range")
  end.

Fixpoint fold_siblings (i index : Z) (siblings : list hash) (h : hash) : hash :=
  match siblings with
  | [] => h
  | s :: rest =>
    fold_siblings (i + 1) index rest
      (if Z.testbit index i then get_concat_hash s h else get_concat_hash h s)
  end.

Definition verify (p : merkle_tree_proof) : bool :=
  bool_decide
    (fold_siblings 0 (Z.shiftr (target_address p) (log2_target_size p))
       (sibling_hashes p) (target_hash p) = root_hash p).

(** The loop of [get_next_leaf_proof], over the locals [proof] and [hash]. *)
Fixpoint get_next_leaf_proof_loop (n : nat) (i : Z) (proof : merkle_tree_proof) (h : hash)
  : method (merkle_tree_proof * hash) :=
  match n with
  | O => ret (proof, h)
  | S n' =>
    let* leaf_count := gets m_leaf_count in
    let* log2_leaf_size := gets m_log2_leaf_size in
    if bit_set leaf_count i then
      let* left := context_at i in
      let* proof := lift (set_sibling_hash left (log2_leaf_size + i) proof) in
      get_next_leaf_proof_loop n' (i + 1) proof (get_concat_hash left h)
    else
      let* right := pristine_hash_at (log2_leaf_size + i) in
      let* proof := lift (set_sibling_hash right (log2_leaf_size + i) proof) in
      get_next_leaf_proof_loop n' (i + 1) proof (get_concat_hash h right)
  end.

Definition get_next_leaf_proof : method merkle_tree_proof :=
  let* depth := gets (λ t, m_log2_root_size t - m_log2_leaf_size t) in
  let* leaf_count := gets m_leaf_count in
  let* max_leaves := gets m_max_leaves in
  if decide (leaf_count >= max_leaves) then
    throw (out_of_range "tree is full")
  else
    let* log2_root := gets m_log2_root_size in
    let* log2_leaf := gets m_log2_leaf_size in
    let proof := proof_new log2_root log2_leaf in
    let proof := set_target_address (wrap (Z.shiftl leaf_count log2_leaf)) proof in
    let* pristine_leaf := pristine_hash_at log2_leaf in
    let proof := set_target_hash pristine_leaf proof in
    let* h := pristine_hash_at log2_leaf in
    let* r := get_next_leaf_proof_loop (Z.to_nat depth) 0 proof h in
    let proof := set_root_hash r.2 r.1 in
    if NDEBUG then ret proof
    else if verify proof then ret proof
    else throw (runtime_error "produced invalid proof").

(** A client that pushes the leaves of a list, in order. *)
Fixpoint push_all (leaves : list hash) : method unit :=
  match leaves with
  | [] => ret tt
  | leaf :: rest => let* _ := push_back leaf in push_all rest
  end.

(** The states a tree goes through: as constructed, then after each
    successful [push_back]. *)
Inductive reachable : back_merkle_tree → Prop :=
  | reachable_new log2_root log2_leaf log2_word t :
      back_merkle_tree_new log2_root log2_leaf log2_word = inr t →
      reachable t
  | reachable_push t leaf t' :
      reachable t →
      push_back leaf t = (inr tt, t') →
      reachable t'.

(** *** What the specification says *)

(** The root of a fully specified binary tree: [2^height] leaf hashes,
    left to right. *)
Fixpoint merkle_root (height : nat) (leaves : list hash) : option hash :=
  match height with
  | O => match leaves with [h] => Some h | _ => None end
  | S k =>
    match merkle_root k (take (2 ^ k)%nat leaves), merkle_root k (drop (2 ^ k)%nat leaves) with
    | Some l, Some r => Some (get_concat_hash l r)
    | _, _ => None
    end
  end.

(** The same root when the list may be short: the missing leaves are [p]. *)
Fixpoint subtree_hash (p : hash) (height : nat) (leaves : list hash) : hash :=
  match height with
  | O => default p (head leaves)
  | S k =>
    get_concat_hash (subtree_hash p k (take (2 ^ k)%nat leaves))
                    (subtree_hash p k (drop (2 ^ k)%nat leaves))
  end.

(** The carry of [push_back] as the specification words it: scan the bits
    of [leaf_count] from bit 0 upward, with no bound on the position;
    combine at a 1, store and stop at the first 0. *)
Definition carry_store (i : nat) (right : hash) (context : list hash) : option (list hash) :=
  if decide (i < length context)%nat then Some (<[i := right]> context) else None.

Fixpoint carry_scan (bits : positive) (i : nat) (right : hash) (context : list hash)
  : option (list hash) :=
  match bits with
  | xO _ => carry_store i right context
  | xI bits' =>
    match context !! i with
    | Some lhs => carry_scan bits' (S i) (get_concat_hash lhs right) context
    | None => None
    end
  | xH =>
    match context !! i with
    | Some lhs => carry_store (S i) (get_concat_hash lhs right) context
    | None => None
    end
  end.

Definition carry (leaf_count : Z) (leaf_hash : hash) (context : list hash)
  : option (list hash) :=
  match leaf_count with
  | Zpos bits => carry_scan bits 0 leaf_hash context
  | _ => carry_store 0 leaf_hash context
  end.

Definition spec_push_back (leaf_hash : hash) (t : back_merkle_tree)
  : option back_merkle_tree :=
  match carry (m_leaf_count t) leaf_hash (m_context t) with
  | Some c => Some (set_leaf_count (m_leaf_count t + 1) (set_context c t))
  | None => None
  end.

(** *** Invariants *)

(** The pristine hash of a subtree of [2^log2_size] bytes: the hash of the
    pristine word, doubled once per level above it. *)
Definition double (h : hash) : hash := get_concat_hash h h.

Definition pristine_at (log2_word_size log2_size : Z) : hash :=
  Nat.iter (Z.to_nat (log2_size - log2_word_size)) double
    (get_word_hash (pristine_word log2_word_size)).

Definition depth (t : back_merkle_tree) : nat :=
  Z.to_nat (m_log2_root_size t - m_log2_leaf_size t).

Definition pristine_leaf (t : back_merkle_tree) : hash :=
  pristine_at (p_log2_word_size (m_pristine_hashes t)) (m_log2_leaf_size t).

(** What the constructor establishes and [push_back] keeps. *)
Record wf (t : back_merkle_tree) : Prop := {
  wf_word : 0 ≤ p_log2_word_size (m_pristine_hashes t) ≤ m_log2_leaf_size t;
  wf_leaf : m_log2_leaf_size t ≤ m_log2_root_size t;
  wf_root : m_log2_root_size t < address_digits;
  wf_max : m_max_leaves t = 2 ^ (m_log2_root_size t - m_log2_leaf_size t);
  wf_count : 0 ≤ m_leaf_count t ≤ m_max_leaves t;
  wf_context : length (m_context t) = S (depth t);
  wf_pristine :
    m_pristine_hashes t =
    pristine_new (m_log2_root_size t) (p_log2_word_size (m_pristine_hashes t));
}.

(** The spine invariant, from level [i] upward over [k] levels: [m] is
    [leaf_count >> i] and [leaves] are the leaves pushed into the
    completed subtrees of height [i] and more. At a level whose bit is
    set the context holds the root of the last [2^i] of them. *)
Fixpoint spine (p : hash) (context : list hash) (k i : nat) (m : Z) (leaves : list hash)
  : Prop :=
  match k with
  | O => m = 0 ∧ leaves = []
  | S k' =>
    if Z.odd m then
      ∃ older block,
        leaves = older ++ block ∧
        length block = (2 ^ i)%nat ∧
        context !! i = Some (subtree_hash p i block) ∧
        spine p context k' (S i) (Z.div2 m) older
    else spine p context k' (S i) (Z.div2 m) leaves
  end.

(** The tree [t] holds the leaves [leaves], pushed in this order. *)
Definition tracks (t : back_merkle_tree) (leaves : list hash) : Prop :=
  wf t ∧
  m_leaf_count t = Z.of_nat (length leaves) ∧
  spine (pristine_leaf t) (m_context t) (S (depth t)) 0 (m_leaf_count t) leaves.

End back_merkle_tree.

Arguments pristine_merkle_tree hash : clear implicits.
Arguments back_merkle_tree hash : clear implicits.
Arguments merkle_tree_proof hash : clear implicits.

End BackMerkleTree.

(** Trees to run the methods on: root of 8 bytes, leaves and words of one
    byte, under the symbolic hasher, in a debug build. *)
Module Examples.
Import BackMerkleTree.

Definition empty_tree : back_merkle_tree digest :=
  {| m_log2_root_size := 3;
     m_log2_leaf_size := 0;
     m_leaf_count := 0;
     m_max_leaves := 8;
     m_context := [Zero; Zero; Zero; Zero];
     m_pristine_hashes := @pristine_new digest symbolic_hasher 3 0 |}.

Definition three_leaves : list digest := [Leaf 0; Leaf 1; Leaf 2].

Definition eight_leaves : list digest :=
  [Leaf 0; Leaf 1; Leaf 2; Leaf 3; Leaf 4; Leaf 5; Leaf 6; Leaf 7].

Definition tree_of_three : back_merkle_tree digest :=
  Eval vm_compute in
    (@push_all digest symbolic_hasher debug_build three_leaves empty_tree).2.

Definition full_tree : back_merkle_tree digest :=
  Eval vm_compute in
    (@push_all digest symbolic_hasher debug_build eight_leaves empty_tree).2.

End Examples.

(** ** The state-access interface *)
Module StateAccess.

(** The components that the interface reads and writes as one 64-bit
    value, each through its own pair [read_X], [write_X]. *)
Inductive component : Type :=
  | pc | minstret | mcycle | mstatus | mtvec | mscratch | mepc | mcause
  | mtval | misa | mie | mip | medeleg | mideleg | mcounteren | stvec
  | sscratch | sepc | scause | stval | satp | scounteren | ilrsc
  | mtimecmp | fromhost | tohost.

#[global] Instance component_eq_dec : EqDecision component.
Proof. solve_decision. Defined.

(** A method of an access object [DERIVED] over the machine state it is
    handed: it returns a value and may change both. *)
Definition access (DERIVED machine_state A : Type) : Type :=
  DERIVED → machine_state → A * DERIVED * machine_state.

(** The private [do_*] methods a derived class implements. [do_read c] and
    [do_write c] stand for [do_read_pc], [do_write_pc] and the like. *)
Class derived (DERIVED machine_state pma_entry : Type) : Type := {
  do_read_register : Z → access DERIVED machine_state Z;
  do_write_register : Z → Z → access DERIVED machine_state unit;
  do_read : component → access DERIVED machine_state Z;
  do_write : component → Z → access DERIVED machine_state unit;
  do_set_iflags_H : access DERIVED machine_state unit;
  do_read_iflags_H : access DERIVED machine_state bool;
  do_reset_iflags_I : access DERIVED machine_state unit;
  do_read_iflags_I : access DERIVED machine_state bool;
  do_read_iflags_PRV : access DERIVED machine_state Z;
  do_write_iflags_PRV : Z → access DERIVED machine_state unit;
  do_read_pma : Z → access DERIVED machine_state (option pma_entry);
  do_write_memory : pma_entry → Z → Z → Z → access DERIVED machine_state unit;
}.

Section i_state_access.
Context {DERIVED machine_state pma_entry : Type}.
Context `{!derived DERIVED machine_state pma_entry}.

(** The public methods of [i_state_access], as the header writes them.
    An argument is a value of the C type of its parameter ([uint8_t] for
    the privilege level, [uint64_t] for a register value): the
    conversion of a wider value at a call is the caller's. *)
Definition read_register (reg : Z) : access DERIVED machine_state Z :=
  do_read_register reg.

Definition write_register (reg val : Z) : access DERIVED machine_state unit :=
  do_write_register reg val.

Definition read (c : component) : access DERIVED machine_state Z :=
  do_read c.

Definition write (c : component) (val : Z) : access DERIVED machine_state unit :=
  do_write c val.

Definition set_iflags_H : access DERIVED machine_state unit := do_set_iflags_H.

Definition read_iflags_H : access DERIVED machine_state bool := do_read_iflags_H.

Definition reset_iflags_I : access DERIVED machine_state unit := do_reset_iflags_I.

Definition read_iflags_I : access DERIVED machine_state bool := do_read_iflags_I.

Definition read_iflags_PRV : access DERIVED machine_state Z := do_read_iflags_PRV.

Definition write_iflags_PRV (val : Z) : access DERIVED machine_state unit :=
  do_write_iflags_PRV val.

Definition read_pma (i : Z) : access DERIVED machine_state (option pma_entry) :=
  do_read_pma i.

Definition read_memory (entry : pma_entry) (paddr val size_log2 : Z)
  : access DERIVED machine_state unit :=
  do_write_memory entry paddr val size_log2.

Definition write_memory (entry : pma_entry) (paddr val size_log2 : Z)
  : access DERIVED machine_state unit :=
  do_write_memory entry paddr val size_log2.

End i_state_access.

(** Modelled from the spec: the machine state and the direct state access
    (machine.h and state-access.h are not among the sources). The state
    has the integer registers, the 64-bit components, the flags, the PMA
    descriptors and the memory; the direct access forwards every operation
    to the raw fields, and keeps nothing of its own. A memory write stores
    the low [2^size_log2] bytes of the value at the address. *)
Record pma : Type := { pma_start : Z; pma_length : Z }.

Record machine_state : Type := {
  x : Z → Z;
  reg : component → Z;
  iflags_H : bool;
  iflags_I : bool;
  iflags_PRV : Z;
  pmas : list pma;
  memory : Z → option Z;
}.

Definition empty_machine : machine_state :=
  {| x := λ _, 0; reg := λ _, 0; iflags_H := false; iflags_I := false;
     iflags_PRV := 3; pmas := []; memory := λ _, None |}.

Definition direct_access : derived unit machine_state pma :=
  {| do_read_register := λ r d s, (x s r, d, s);
     do_write_register := λ r v d s,
       (tt, d, {| x := λ r', if decide (r' = r) then v else x s r'; reg := reg s;
                  iflags_H := iflags_H s; iflags_I := iflags_I s;
                  iflags_PRV := iflags_PRV s; pmas := pmas s; memory := memory s |});
     do_read := λ c d s, (reg s c, d, s);
     do_write := λ c v d s,
       (tt, d, {| x := x s; reg := λ c', if decide (c' = c) then v else reg s c';
                  iflags_H := iflags_H s; iflags_I := iflags_I s;
                  iflags_PRV := iflags_PRV s; pmas := pmas s; memory := memory s |});
     do_set_iflags_H := λ d s,
       (tt, d, {| x := x s; reg := reg s; iflags_H := true; iflags_I := iflags_I s;
                  iflags_PRV := iflags_PRV s; pmas := pmas s; memory := memory s |});
     do_read_iflags_H := λ d s, (iflags_H s, d, s);
     do_reset_iflags_I := λ d s,
       (tt, d, {| x := x s; reg := reg s; iflags_H := iflags_H s; iflags_I := false;
                  iflags_PRV := iflags_PRV s; pmas := pmas s; memory := memory s |});
     do_read_iflags_I := λ d s, (iflags_I s, d, s);
     do_read_iflags_PRV := λ d s, (iflags_PRV s, d, s);
     do_write_iflags_PRV := λ v d s,
       (tt, d, {| x := x s; reg := reg s; iflags_H := iflags_H s; iflags_I := iflags_I s;
                  iflags_PRV := v; pmas := pmas s; memory := memory s |});
     do_read_pma := λ i d s, (if decide (0 ≤ i) then pmas s !! Z.to_nat i else None, d, s);
     do_write_memory := λ _ paddr v size_log2 d s,
       (tt, d, {| x := x s; reg := reg s; iflags_H := iflags_H s; iflags_I := iflags_I s;
                  iflags_PRV := iflags_PRV s; pmas := pmas s;
                  memory := λ a, if decide (a = paddr)
                                 then Some (v mod 2 ^ (8 * 2 ^ size_log2))
                                 else memory s a |}) |}.

End StateAccess.

(** ** The Lua bindings of the verifier entry points *)
Module CluaMachine.

(** The verifier entry points of the C API. *)
Inductive verifier : Type :=
  | step_uarch_log
  | step_uarch_state_transition
  | reset_uarch_log
  | reset_uarch_state_transition
  | send_cmio_response_log
  | send_cmio_response_state_transition.

(** The C API the bindings call (machine-c-api.h is not among the
    sources): the verifier functions take the access log by a pointer
    that may be null, return an [int], zero for success, and leave a
    message for [cm_get_last_error_message] in the API's own state. *)
Class machine_c_api : Type := {
  cm_access_log : Type;
  cm_hash : Type;
  api_state : Type;
  cm_get_last_error_message : api_state → string;
  cm_verify_step_uarch_log : option cm_access_log → bool → api_state → Z * api_state;
  cm_verify_step_uarch_state_transition :
    cm_hash → option cm_access_log → cm_hash → bool → api_state → Z * api_state;
  cm_verify_reset_uarch_log : option cm_access_log → bool → api_state → Z * api_state;
  cm_verify_reset_uarch_state_transition :
    cm_hash → option cm_access_log → cm_hash → bool → api_state → Z * api_state;
  cm_verify_send_cmio_response_log :
    Z → string → Z → option cm_access_log → bool → api_state → Z * api_state;
  cm_verify_send_cmio_response_state_transition :
    Z → string → Z → cm_hash → option cm_access_log → cm_hash → bool →
    api_state → Z * api_state;
}.

Section lua.
Context `{!machine_c_api}.

(** What the stack of a Lua state holds, as far as the bindings go: the
    userdata is a managed pointer to an access log, null once reset. *)
Inductive lua_value : Type :=
  | LNil
  | LNumber (n : Z)
  | LString (s : string)
  | LManagedLog (p : option cm_access_log).

(** The argument checks of Lua's auxiliary library and of
    clua-machine-util.h (not among the sources): the value at a stack
    index converted, or the message of the Lua error raised. *)
Class argument_checks : Type := {
  luaL_checkinteger_at : list lua_value → Z → string + Z;
  luaL_checklstring_at : list lua_value → Z → string + string;
  clua_check_cm_access_log_at : list lua_value → Z → string + cm_access_log;
  clua_check_cm_hash_at : list lua_value → Z → string + cm_hash;
}.

Context `{!argument_checks}.

(** The world a binding runs in: the Lua stack, the state of the C API,
    and the verifier calls made so far with what each returned. *)
Record world : Type := {
  stack : list lua_value;
  api : api_state;
  verifier_calls : list (verifier * Z);
}.

(** A [lua_CFunction]: returns the number of its results, or raises a Lua
    error with a message. *)
Definition lua_CFunction : Type := M world string Z.

Definition with_stack (f : list lua_value → list lua_value) (w : world) : world :=
  {| stack := f (stack w); api := api w; verifier_calls := verifier_calls w |}.

Definition lua_settop (n : Z) : M world string unit :=
  modify (with_stack (λ st, take (Z.to_nat n) st ++ replicate (Z.to_nat n - length st) LNil)).

Definition lua_pushnumber (n : Z) : M world string unit :=
  modify (with_stack (λ st, st ++ [LNumber n])).

(** [luaL_error(L, "%s", msg)], as far as the outcome of a binding goes:
    the error raised with the message. That Lua pushes the message,
    after the position of the caller, before it raises is left out; the
    properties below read the stack after an error only for the
    userdata it holds. *)
Definition luaL_error {A} (msg : string) : M world string A := throw msg.

(** An argument check reads the stack. [lua_tolstring], behind
    [luaL_checklstring], also rewrites a number in its slot as a string;
    this is left out: the properties below do not read the slots of the
    arguments. *)
Definition check {A} (f : list lua_value → Z → string + A) (idx : Z) : M world string A :=
  λ w, (f (stack w) idx, w).

Definition luaL_checkinteger := check luaL_checkinteger_at.
Definition luaL_checklstring := check luaL_checklstring_at.
Definition clua_check_cm_access_log := check clua_check_cm_access_log_at.
Definition clua_check_cm_hash := check clua_check_cm_hash_at.

(** [clua_push_to(L, clua_managed_cm_ptr<cm_access_log>(log))]: the
    userdata is pushed; the reference returned is its place in the stack. *)
Definition clua_push_to (log : cm_access_log) : M world string nat :=
  λ w, (inr (length (stack w)), with_stack (λ st, st ++ [LManagedLog (Some log)]) w).

(** [managed_log.get()] and [managed_log.reset()]. *)
Definition managed_get (ref : nat) : M world string (option cm_access_log) :=
  gets (λ w, match stack w !! ref with
             | Some (LManagedLog p) => p
             | _ => None
             end).

Definition managed_reset (ref : nat) : M world string unit :=
  modify (with_stack (λ st, <[ref := LManagedLog None]> st)).

(** A call of a verifier: the API's state moves on, and the call is noted
    with its result. *)
Definition cm_call (v : verifier) (f : api_state → Z * api_state) : M world string Z :=
  λ w, let r := f (api w) in
       (inr r.1, {| stack := stack w; api := r.2;
                    verifier_calls := verifier_calls w ++ [(v, r.1)] |}).

Definition last_error_message : M world string string :=
  gets (λ w, cm_get_last_error_message (api w)).

Definition machine_class_index_verify_step_uarch_log : lua_CFunction :=
  let* _ := lua_settop 2 in
  let* log := clua_check_cm_access_log 1 in
  let* managed_log := clua_push_to log in
  let* log := managed_get managed_log in
  let* r := cm_call step_uarch_log (cm_verify_step_uarch_log log true) in
  if decide (r ≠ 0) then
    let* msg := last_error_message in luaL_error msg
  else
    let* _ := lua_pushnumber 1 in
    let* _ := managed_reset managed_log in
    ret 1.

Definition machine_class_index_verify_step_uarch_state_transition : lua_CFunction :=
  let* _ := lua_settop 4 in
  let* root_hash := clua_check_cm_hash 1 in
  let* log := clua_check_cm_access_log 2 in
  let* managed_log := clua_push_to log in
  let* target_hash := clua_check_cm_hash 3 in
  let* log := managed_get managed_log in
  let* r := cm_call step_uarch_state_transition
              (cm_verify_step_uarch_state_transition root_hash log target_hash true) in
  if decide (r ≠ 0) then
    let* msg := last_error_message in luaL_error msg
  else
    let* _ := lua_pushnumber 1 in
    let* _ := managed_reset managed_log in
    ret 1.

Definition machine_class_index_verify_reset_uarch_log : lua_CFunction :=
  let* _ := lua_settop 2 in
  let* log := clua_check_cm_access_log 1 in
  let* managed_log := clua_push_to log in
  let* log := managed_get managed_log in
  let* r := cm_call reset_uarch_log (cm_verify_reset_uarch_log log true) in
  if decide (r ≠ 0) then
    let* msg := last_error_message in luaL_error msg
  else
    let* _ := lua_pushnumber 1 in
    let* _ := managed_reset managed_log in
    ret 1.

Definition machine_class_index_verify_reset_uarch_state_transition : lua_CFunction :=
  let* _ := lua_settop 4 in
  let* root_hash := clua_check_cm_hash 1 in
  let* log := clua_check_cm_access_log 2 in
  let* managed_log := clua_push_to log in
  let* target_hash := clua_check_cm_hash 3 in
  let* log := managed_get managed_log in
  let* r := cm_call reset_uarch_state_transition
              (cm_verify_reset_uarch_state_transition root_hash log target_hash true) in
  if decide (r ≠ 0) then
    let* msg := last_error_message in luaL_error msg
  else
    let* _ := lua_pushnumber 1 in
    let* _ := managed_reset managed_log in
    ret 1.

Definition machine_class_index_verify_send_cmio_response_log : lua_CFunction :=
  let* _ := lua_settop 4 in
  let* n := luaL_checkinteger 1 in
  let reason := n mod 2 ^ 16 in
  let* data := luaL_checklstring 2 in
  let length := Z.of_nat (String.length data) in
  let* log := clua_check_cm_access_log 3 in
  let* managed_log := clua_push_to log in
  let* log := managed_get managed_log in
  let* r := cm_call send_cmio_response_log
              (cm_verify_send_cmio_response_log reason data length log true) in
  if decide (r ≠ 0) then
    let* msg := last_error_message in luaL_error msg
  else
    let* _ := lua_pushnumber 1 in
    let* _ := managed_reset managed_log in
    ret 1.

Definition machine_class_index_verify_send_cmio_response_state_transition : lua_CFunction :=
  let* _ := lua_settop 6 in
  let* n := luaL_checkinteger 1 in
  let reason := n mod 2 ^ 16 in
  let* data := luaL_checklstring 2 in
  let length := Z.of_nat (String.length data) in
  let* root_hash := clua_check_cm_hash 3 in
  let* log := clua_check_cm_access_log 4 in
  let* managed_log := clua_push_to log in
  let* target_hash := clua_check_cm_hash 5 in
  let* log := managed_get managed_log in
  let* r := cm_call send_cmio_response_state_transition
              (cm_verify_send_cmio_response_state_transition
                 reason data length root_hash log target_hash true) in
  if decide (r ≠ 0) then
    let* msg := last_error_message in luaL_error msg
  else
    let* _ := lua_pushnumber 1 in
    let* _ := managed_reset managed_log in
    ret 1.

(** The verifier entries of [machine_class_index], each with the verifier
    it is the binding of. *)
Definition verifier_bindings : list (string * verifier * lua_CFunction) :=
  [ ("verify_step_uarch_log", step_uarch_log,
     machine_class_index_verify_step_uarch_log);
    ("verify_step_uarch_state_transition", step_uarch_state_transition,
     machine_class_index_verify_step_uarch_state_transition);
    ("verify_reset_uarch_log", reset_uarch_log,
     machine_class_index_verify_reset_uarch_log);
    ("verify_reset_uarch_state_transition", reset_uarch_state_transition,
     machine_class_index_verify_reset_uarch_state_transition);
    ("verify_send_cmio_response_log", send_cmio_response_log,
     machine_class_index_verify_send_cmio_response_log);
    ("verify_send_cmio_response_state_transition", send_cmio_response_state_transition,
     machine_class_index_verify_send_cmio_response_state_transition) ].

(** A binding surfaces the verifier's failures: started with no verifier
    call noted, whenever the call of [v] it makes returns nonzero it
    raises the last error message as a Lua error, and it returns (one
    result, the number 1 on top of the stack) only after a call of [v]
    that returned zero. *)
Definition surfaces_failures (v : verifier) (f : lua_CFunction) : Prop :=
  ∀ w out w',
    verifier_calls w = [] →
    f w = (out, w') →
    (∀ v' r, (v', r) ∈ verifier_calls w' → r ≠ 0 →
       out = inl (cm_get_last_error_message (api w'))) ∧
    (∀ n, out = inr n →
       n = 1 ∧ verifier_calls w' = [(v, 0)] ∧ last (stack w') = Some (LNumber 1)).

End lua.

(** A small C API to run the bindings on: an access log is a number, which
    the verifiers return as their result, with a message when it is not
    zero. *)
Definition toy_verify (log : option Z) (_ : string) : Z * string :=
  match log with
  | Some 0 => (0, EmptyString)
  | Some n => (n, "invalid access proof")
  | None => (-1, "invalid access log")
  end.

Definition toy_api : machine_c_api :=
  {| cm_access_log := Z;
     cm_hash := Z;
     api_state := string;
     cm_get_last_error_message := λ s, s;
     cm_verify_step_uarch_log := λ log _, toy_verify log;
     cm_verify_step_uarch_state_transition := λ _ log _ _, toy_verify log;
     cm_verify_reset_uarch_log := λ log _, toy_verify log;
     cm_verify_reset_uarch_state_transition := λ _ log _ _, toy_verify log;
     cm_verify_send_cmio_response_log := λ _ _ _ log _, toy_verify log;
     cm_verify_send_cmio_response_state_transition := λ _ _ _ _ log _ _, toy_verify log |}.

Definition toy_number (st : list (@lua_value toy_api)) (idx : Z) : string + Z :=
  match st !! Z.to_nat (idx - 1) with
  | Some (LNumber n) => inr n
  | _ => inl "number expected"
  end.

Definition toy_string (st : list (@lua_value toy_api)) (idx : Z) : string + string :=
  match st !! Z.to_nat (idx - 1) with
  | Some (LString s) => inr s
  | _ => inl "string expected"
  end.

Definition toy_checks : @argument_checks toy_api :=
  {| luaL_checkinteger_at := toy_number;
     luaL_checklstring_at := toy_string;
     clua_check_cm_access_log_at := toy_number;
     clua_check_cm_hash_at := toy_number |}.

(** A call of [verify_step_uarch_log] with a log that the API rejects
    with the result 7, and the world it leaves. *)
Definition rejected_call : @world toy_api :=
  {| stack := [LNumber 7];
     api := (EmptyString : @api_state toy_api);
     verifier_calls := [] |}.

Definition after_rejected_call : @world toy_api :=
  {| stack := [LNumber 7; LNil; LManagedLog (Some (7 : @cm_access_log toy_api))];
     api := ("invalid access proof" : @api_state toy_api);
     verifier_calls := [(step_uarch_log, 7)] |}.

End CluaMachine.

(** ** More of the Lua bindings *)
Module CluaMachineMore.
Import CluaMachine.

Section outcome.
Context `{!machine_c_api} `{!argument_checks}.






End outcome.



End CluaMachineMore.

(** ** The constructor of the Lua machine class *)
Module CluaMachineCtor.
Import CluaMachine.

(** The part of the C API that makes machines (machine-c-api.h is not
    among the sources): [cm_create] and [cm_load] take two strings and the
    place of a machine pointer, which they may write, and return an
    [int], zero for success. *)
Class machine_lifecycle_api `{!machine_c_api} : Type := {
  cm_machine : Type;
  cm_create :
    string → string → option cm_machine → api_state → Z * option cm_machine * api_state;
  cm_load :
    string → string → option cm_machine → api_state → Z * option cm_machine * api_state;
}.

Section ctor.
Context `{!machine_c_api} `{!machine_lifecycle_api}.

(** What the stack holds when the constructor runs: the userdata is a
    managed pointer to a machine. *)
Inductive ctor_value : Type :=
  | CNil
  | CNumber (n : Z)
  | CString (s : string)
  | CTable (id : Z)
  | CManagedMachine (p : option cm_machine).

(** What the constructor uses of clua-machine-util.h and of Lua, neither
    among the sources: [clua_value_to_json(L, idx).dump()], the string
    or the message of the error raised; the string [lua_tolstring]
    writes for a number; the message of [luaL_typeerror] for an argument
    (absent when the index is above the top) that is not of the type
    named; the position that [luaL_where(L, lvl)] gives. *)
Class ctor_checks : Type := {
  clua_value_to_json_at : list ctor_value → Z → string + string;
  lua_number_tostring : Z → string;
  bad_argument : Z → string → option ctor_value → string;
  luaL_where : Z → string;
}.

Context `{!ctor_checks}.

Record ctor_world : Type := {
  ctor_stack : list ctor_value;
  ctor_api : api_state;
}.

Definition with_ctor_stack (f : list ctor_value → list ctor_value) (w : ctor_world)
  : ctor_world :=
  {| ctor_stack := f (ctor_stack w); ctor_api := ctor_api w |}.

Definition ctor_settop (n : Z) : M ctor_world string unit :=
  modify (with_ctor_stack
            (λ st, take (Z.to_nat n) st ++ replicate (Z.to_nat n - length st) CNil)).

(** [clua_push_to(L, clua_managed_cm_ptr<cm_machine>(nullptr))]: the
    userdata is pushed; the reference returned is its place in the stack. *)
Definition ctor_push_to (p : option cm_machine) : M ctor_world string nat :=
  λ w, (inr (length (ctor_stack w)),
        with_ctor_stack (λ st, st ++ [CManagedMachine p]) w).

(** [luaL_error(L, "%s", msg)]: the message, with the position of the
    caller before it, is pushed and raised. *)
Definition ctor_error {A} (msg : string) : M ctor_world string A :=
  λ w, (inl (luaL_where 1 +:+ msg),
        with_ctor_stack (λ st, st ++ [CString (luaL_where 1 +:+ msg)]) w).

(** [clua_value_to_json(L, idx).dump()]. *)
Definition clua_value_to_json (idx : Z) : M ctor_world string string :=
  λ w, (clua_value_to_json_at (ctor_stack w) idx, w).

(** [lua_tolstring] on a value: a string as it is, a number written out,
    [NULL] for anything else. *)
Definition lua_tolstring (v : ctor_value) : option string :=
  match v with
  | CString s => Some s
  | CNumber n => Some (lua_number_tostring n)
  | _ => None
  end.

(** [luaL_checkstring(L, idx)], which is [luaL_checklstring(L, idx,
    NULL)]: [lua_tolstring] leaves a string in the slot, also where a
    number was; [NULL] is a bad argument. *)
Definition luaL_checkstring (idx : Z) : M ctor_world string string :=
  λ w, let i := Z.to_nat (idx - 1) in
       match ctor_stack w !! i with
       | Some v =>
         match lua_tolstring v with
         | Some s => (inr s, with_ctor_stack (λ st, <[i := CString s]> st) w)
         | None => ctor_error (bad_argument idx "string" (Some v)) w
         end
       | None => ctor_error (bad_argument idx "string" None) w
       end.

(** [lua_type(L, idx) == LUA_TTABLE]. *)
Definition is_table_at (st : list ctor_value) (idx : Z) : bool :=
  match st !! Z.to_nat (idx - 1) with
  | Some (CTable _) => true
  | _ => false
  end.

(** A call of [cm_create] or [cm_load] on [&managed_machine.get()]: the
    API gets the place of the pointer the userdata holds, and may write
    it. *)
Definition cm_call_machine
    (f : option cm_machine → api_state → Z * option cm_machine * api_state) (ref : nat)
  : M ctor_world string Z :=
  λ w, let p := match ctor_stack w !! ref with
                | Some (CManagedMachine p) => p
                | _ => None
                end in
       let r := f p (ctor_api w) in
       (inr r.1.1,
        {| ctor_stack := <[ref := CManagedMachine r.1.2]> (ctor_stack w);
           ctor_api := r.2 |}).

Definition ctor_last_error : M ctor_world string string :=
  gets (λ w, cm_get_last_error_message (ctor_api w)).

Definition machine_ctor : M ctor_world string Z :=
  let* _ := ctor_settop 3 in
  let* managed_machine := ctor_push_to None in
  let* runtime_config := clua_value_to_json 3 in
  let* table := gets (λ w, is_table_at (ctor_stack w) 2) in
  if table then
    let* config := clua_value_to_json 2 in
    let* r := cm_call_machine (cm_create config runtime_config) managed_machine in
    if decide (r ≠ 0) then
      let* msg := ctor_last_error in ctor_error msg
    else ret 1
  else
    let* filename := luaL_checkstring 2 in
    let* r := cm_call_machine (cm_load filename runtime_config) managed_machine in
    if decide (r ≠ 0) then
      let* msg := ctor_last_error in ctor_error msg
    else ret 1.

(** The stack as the constructor reads its arguments: the three
    arguments as [lua_settop(L, 3)] makes them, and the userdata with
    its null pointer. *)
Definition ctor_arguments (w : ctor_world) : list ctor_value :=
  (take 3 (ctor_stack w) ++ replicate (3 - length (ctor_stack w)) CNil) ++
  [CManagedMachine None].

(** The constructor stops at its arguments with the message [msg]: the
    third or, when it is a table, the second has no JSON, or the second
    is neither a table, a string nor a number. *)
Definition rejected_arguments (args : list ctor_value) (msg : string) : Prop :=
  clua_value_to_json_at args 3 = inl msg ∨
  (is_table_at args 2 = true ∧ clua_value_to_json_at args 2 = inl msg) ∨
  (is_table_at args 2 = false ∧ (args !! 1%nat) ≫= lua_tolstring = None ∧
   msg = luaL_where 1 +:+ bad_argument 2 "string" (args !! 1%nat)).

(** The function of the C API that the constructor applies to arguments
    it has read, [cm_create] for a table and [cm_load] otherwise, takes
    the state [a] of the API to [a'], returns [r] and writes [p] over a
    null pointer; [second] is the string left in the second slot when
    it was read as a file name. *)
Definition created_or_loaded (args : list ctor_value) (a : api_state)
    (r : Z) (p : option cm_machine) (a' : api_state) (second : option ctor_value) : Prop :=
  ∃ runtime_config,
    clua_value_to_json_at args 3 = inr runtime_config ∧
    if is_table_at args 2 then
      ∃ config,
        clua_value_to_json_at args 2 = inr config ∧
        cm_create config runtime_config None a = (r, p, a') ∧
        second = args !! 1%nat
    else
      ∃ filename,
        (args !! 1%nat) ≫= lua_tolstring = Some filename ∧
        cm_load filename runtime_config None a = (r, p, a') ∧
        second = Some (CString filename).

End ctor.

(** A small API to run the constructor on: a machine is the string it
    was made from; creating with an empty runtime configuration fails
    with 1. *)
Definition toy_lifecycle : @machine_lifecycle_api toy_api :=
  {| cm_machine := string;
     cm_create := λ config runtime_config p (s : @api_state toy_api),
       if decide (runtime_config = EmptyString)
       then (1, p, ("empty runtime configuration" : @api_state toy_api))
       else (0, Some config, s);
     cm_load := λ filename _ p (s : @api_state toy_api), (0, Some filename, s) |}.

Definition toy_ctor_json (st : list (@ctor_value toy_api toy_lifecycle)) (idx : Z)
  : string + string :=
  match st !! Z.to_nat (idx - 1) with
  | Some (CString s) => inr s
  | Some (CTable _) => inr "{}"
  | Some CNil => inr "null"
  | _ => inl "cannot convert to JSON"
  end.

Definition toy_ctor_checks : @ctor_checks toy_api toy_lifecycle :=
  {| clua_value_to_json_at := toy_ctor_json;
     lua_number_tostring := pretty;
     bad_argument := λ _ _ _, "bad argument";
     luaL_where := λ _, "machine.lua:1: " |}.

(** [cartesi.machine(42)]: a number where the name of a directory is
    read, and the world the constructor leaves. *)
Definition ctor_with_number : @ctor_world toy_api toy_lifecycle :=
  {| ctor_stack := [CTable 0; CNumber 42];
     ctor_api := (EmptyString : @api_state toy_api) |}.

Definition after_ctor_with_number : @ctor_world toy_api toy_lifecycle :=
  {| ctor_stack :=
       [CTable 0; CString "42"; CNil;
        CManagedMachine (Some ("42" : @cm_machine toy_api toy_lifecycle))];
     ctor_api := (EmptyString : @api_state toy_api) |}.

(** [cartesi.machine({}, s)] with a runtime configuration [s] that the
    API refuses, and the world the constructor leaves. *)
Definition ctor_refused : @ctor_world toy_api toy_lifecycle :=
  {| ctor_stack := [CTable 0; CTable 1; CString EmptyString];
     ctor_api := (EmptyString : @api_state toy_api) |}.

Definition after_ctor_refused : @ctor_world toy_api toy_lifecycle :=
  {| ctor_stack :=
       [CTable 0; CTable 1; CString EmptyString; CManagedMachine None;
        CString "machine.lua:1: empty runtime configuration"];
     ctor_api := ("empty runtime configuration" : @api_state toy_api) |}.

End CluaMachineCtor.

(** * Properties *)

(** ** The back Merkle tree *)
Module BackMerkleTreeFacts.
Import BackMerkleTree.

Section facts.
Context {hash : Type} `{!Hasher hash} `{!Build}.

Implicit Types (t : back_merkle_tree hash) (proof : merkle_tree_proof hash).
Implicit Types (h root leaf right : hash) (leaves context : list hash).

(** *** Address arithmetic *)

Lemma wrap_small x : 0 ≤ x < 2 ^ address_digits → wrap x = x.
Proof. intros. unfold wrap. by apply Z.mod_small. Qed.

Lemma land_pow2 x i : 0 ≤ i → Z.land x (2 ^ i) = if Z.testbit x i then 2 ^ i else 0.
Proof.
  intros Hi. apply Z.bits_inj'. intros m Hm.
  rewrite Z.land_spec, Z.pow2_bits_eqb by done.
  destruct (Z.eqb_spec i m) as [->|Hne].
  - destruct (Z.testbit x m); simpl.
    + by rewrite Z.pow2_bits_true.
    + by rewrite Z.bits_0.
  - rewrite andb_false_r. destruct (Z.testbit x i).
    + by rewrite Z.pow2_bits_false.
    + by rewrite Z.bits_0.
Qed.

Lemma bit_set_testbit x i : 0 ≤ i < address_digits → bit_set x i = Z.testbit x i.
Proof.
  intros [Hi Hd]. unfold bit_set.
  rewrite Z.shiftl_1_l, wrap_small, land_pow2 by (try split; auto using Z.pow_lt_mono_r with zarith).
  destruct (Z.testbit x i); simpl; [|done].
  apply negb_true_iff, Z.eqb_neq. pose proof (Z.pow_pos_nonneg 2 i). lia.
Qed.

Lemma testbit_shiftr_odd x i : 0 ≤ i → Z.testbit x i = Z.odd (Z.shiftr x i).
Proof. intros. by rewrite <- Z.bit0_odd, Z.shiftr_spec, Z.add_0_l. Qed.

Lemma shiftr_succ x i : 0 ≤ i → Z.shiftr x (i + 1) = Z.div2 (Z.shiftr x i).
Proof. intros. by rewrite Z.div2_spec, Z.shiftr_shiftr. Qed.

Lemma odd_succ m : Z.odd (m + 1) = negb (Z.odd m).
Proof. by rewrite Z.add_1_r, Z.odd_succ, Z.negb_odd. Qed.

Lemma div2_succ_odd m : Z.odd m = true → Z.div2 (m + 1) = Z.div2 m + 1.
Proof.
  intros Hm. pose proof (Z.div2_odd m) as E. rewrite Hm in E. simpl in E.
  rewrite !Z.div2_div in *. Z.div_mod_to_equations. lia.
Qed.

Lemma div2_succ_even m : Z.odd m = false → Z.div2 (m + 1) = Z.div2 m.
Proof.
  intros Hm. pose proof (Z.div2_odd m) as E. rewrite Hm in E. simpl in E.
  rewrite !Z.div2_div in *. Z.div_mod_to_equations. lia.
Qed.

Lemma div2_lt_pow2 m (n : nat) : 0 ≤ m → m < 2 ^ Z.of_nat (S n) → Z.div2 m < 2 ^ Z.of_nat n.
Proof.
  intros H0 Hm. rewrite Nat2Z.inj_succ, Z.pow_succ_r in Hm by lia.
  pose proof (Z.div2_odd m). destruct (Z.odd m); simpl in *; lia.
Qed.

Lemma vector_at_nat {A} (v : list A) (i : nat) : vector_at v (Z.of_nat i) = v !! i.
Proof. unfold vector_at. rewrite decide_True by lia. by rewrite Nat2Z.id. Qed.

(** *** Pristine hashes and subtrees *)

Lemma pristine_levels_lookup n h (j : nat) :
  (j < n)%nat → pristine_levels n h !! j = Some (Nat.iter j double h).
Proof.
  revert h j. induction n as [|n IH]; intros h [|j] Hj; try lia; [done|].
  cbn [pristine_levels lookup list_lookup]. rewrite IH by lia.
  by rewrite Nat.iter_succ_r.
Qed.

Lemma get_hash_pristine r w s :
  0 ≤ w → w ≤ s ≤ r → get_hash (pristine_new r w) s = inr (pristine_at w s).
Proof.
  intros Hw Hs. unfold get_hash, vector_at. simpl.
  rewrite decide_False, decide_True by lia.
  by rewrite pristine_levels_lookup by lia.
Qed.

Lemma pristine_at_add w s (i : nat) :
  w ≤ s → pristine_at w (s + Z.of_nat i) = Nat.iter i double (pristine_at w s).
Proof.
  intros. unfold pristine_at.
  replace (Z.to_nat (s + Z.of_nat i - w)) with (i + Z.to_nat (s - w))%nat by lia.
  by rewrite Nat.iter_add.
Qed.

Lemma subtree_hash_nil p d : subtree_hash p d [] = Nat.iter d double p.
Proof.
  induction d as [|d IH]; simpl; [done|].
  by rewrite take_nil, drop_nil, IH.
Qed.

Lemma subtree_hash_app p d block rest :
  length block = (2 ^ d)%nat →
  subtree_hash p (S d) (block ++ rest) =
  get_concat_hash (subtree_hash p d block) (subtree_hash p d rest).
Proof. intros Hb. simpl. by rewrite take_app_length', drop_app_length'. Qed.

Lemma subtree_hash_short p d part :
  (length part ≤ 2 ^ d)%nat →
  subtree_hash p (S d) part =
  get_concat_hash (subtree_hash p d part) (subtree_hash p d []).
Proof. intros Hb. simpl. by rewrite take_ge, drop_ge. Qed.

Lemma subtree_hash_pad p d leaves k :
  subtree_hash p d (leaves ++ replicate k p) = subtree_hash p d leaves.
Proof.
  revert leaves k. induction d as [|d IH]; intros leaves k.
  - destruct leaves; [|done]. by destruct k.
  - simpl. by rewrite take_app, drop_app, take_replicate, drop_replicate, !IH.
Qed.

Lemma merkle_root_full p d leaves :
  length leaves = (2 ^ d)%nat → merkle_root d leaves = Some (subtree_hash p d leaves).
Proof.
  revert leaves. induction d as [|d IH]; intros leaves Hl.
  - by destruct leaves as [|? [|]].
  - simpl in *. rewrite !IH; [done| |].
    + rewrite length_drop. lia.
    + rewrite length_take. lia.
Qed.

(** *** The spine *)

Lemma spine_S p context k i m leaves :
  spine p context (S k) i m leaves =
  if Z.odd m then
    ∃ older block,
      leaves = older ++ block ∧
      length block = (2 ^ i)%nat ∧
      context !! i = Some (subtree_hash p i block) ∧
      spine p context k (S i) (Z.div2 m) older
  else spine p context k (S i) (Z.div2 m) leaves.
Proof. done. Qed.

Lemma spine_zero p context k i : spine p context k i 0 [].
Proof. revert i. induction k; intros i; simpl; auto. Qed.

Lemma spine_insert_below p context k i (j : nat) v m leaves :
  (j < i)%nat →
  spine p context k i m leaves → spine p (<[j := v]> context) k i m leaves.
Proof.
  revert i m leaves. induction k as [|k IH]; intros i m leaves Hj; simpl; [done|].
  destruct (Z.odd m).
  - intros (older & block & -> & Hlen & Hctx & Hrest).
    exists older, block. rewrite list_lookup_insert_ne by lia. auto with lia.
  - apply IH. lia.
Qed.

Lemma spine_top p context (n : nat) i leaves :
  spine p context (S n) i (2 ^ Z.of_nat n) leaves →
  context !! (i + n)%nat = Some (subtree_hash p (i + n) leaves).
Proof.
  revert i. induction n as [|n IH]; intros i.
  - simpl. intros (older & block & -> & _ & Hctx & _ & ->).
    by rewrite Nat.add_0_r.
  - rewrite Nat2Z.inj_succ, Z.pow_succ_r by lia.
    cbn [spine]. rewrite Z.odd_mul. cbn [Z.odd andb].
    rewrite Z.div2_div, Z.mul_comm, Z.div_mul by done.
    intros Hs. apply IH in Hs. by rewrite <- Nat.add_succ_comm.
Qed.

(** *** Well-formed trees *)

Lemma wf_depth t : wf t → Z.of_nat (depth t) = m_log2_root_size t - m_log2_leaf_size t.
Proof. intros []. unfold depth. lia. Qed.

Lemma wf_max_leaves t : wf t → m_max_leaves t = 2 ^ Z.of_nat (depth t).
Proof. intros Hwf. rewrite wf_depth by done. by destruct Hwf. Qed.

Lemma wf_max_leaves_lt t : wf t → m_max_leaves t < 2 ^ address_digits.
Proof.
  intros Hwf. rewrite (wf_max t Hwf). destruct Hwf.
  apply Z.pow_lt_mono_r; lia.
Qed.

Lemma wf_get_hash t s :
  wf t → m_log2_leaf_size t ≤ s ≤ m_log2_root_size t →
  get_hash (m_pristine_hashes t) s =
  inr (pristine_at (p_log2_word_size (m_pristine_hashes t)) s).
Proof.
  intros Hwf Hs. pose proof (wf_pristine t Hwf) as E. pose proof (wf_word t Hwf) as Hw.
  set (w := p_log2_word_size _) in *. rewrite E. apply get_hash_pristine; lia.
Qed.

Lemma wf_pristine_level t (i : nat) :
  wf t → (i ≤ depth t)%nat →
  get_hash (m_pristine_hashes t) (m_log2_leaf_size t + Z.of_nat i) =
  inr (subtree_hash (pristine_leaf t) i []).
Proof.
  intros Hwf Hi. pose proof (wf_depth t Hwf). pose proof (wf_word t Hwf).
  rewrite wf_get_hash by (try done; lia).
  rewrite subtree_hash_nil. unfold pristine_leaf. by rewrite pristine_at_add by lia.
Qed.

Lemma wf_new r l w t : back_merkle_tree_new r l w = inr t → wf t.
Proof.
  unfold back_merkle_tree_new. repeat case_decide; try done.
  intros [= <-]. split; simpl; unfold depth; simpl; try lia.
  - rewrite Z.shiftl_1_l. apply wrap_small. split; [apply Z.pow_nonneg; lia|].
    apply Z.pow_lt_mono_r; lia.
  - rewrite Z.shiftl_1_l, wrap_small.
    + split; [lia|]. apply Z.lt_le_incl, Z.pow_pos_nonneg; lia.
    + split; [apply Z.pow_nonneg; lia|]. apply Z.pow_lt_mono_r; lia.
  - rewrite length_replicate. lia.
  - done.
Qed.

(** *** The loops, one iteration at a time *)

Lemma push_back_loop_S n i right t :
  push_back_loop (S n) i right t =
  if bit_set (m_leaf_count t) i then
    match vector_at (m_context t) i with
    | Some lhs => push_back_loop n (i + 1) (get_concat_hash lhs right) t
    | None => (inl vector_out_of_bounds, t)
    end
  else context_store i right t.
Proof.
  cbn [push_back_loop]. unfold bind, gets, context_at.
  destruct (bit_set _ _); [|done]. by destruct (vector_at _ _).
Qed.

Lemma get_root_hash_loop_S n i root t :
  get_root_hash_loop (S n) i root t =
  if bit_set (m_leaf_count t) i then
    match vector_at (m_context t) i with
    | Some lhs => get_root_hash_loop n (i + 1) (get_concat_hash lhs root) t
    | None => (inl vector_out_of_bounds, t)
    end
  else
    match get_hash (m_pristine_hashes t) (m_log2_leaf_size t + i) with
    | inr rhs => get_root_hash_loop n (i + 1) (get_concat_hash root rhs) t
    | inl e => (inl e, t)
    end.
Proof.
  cbn [get_root_hash_loop]. unfold bind, gets, context_at, pristine_hash_at.
  destruct (bit_set _ _).
  - by destruct (vector_at _ _).
  - by destruct (get_hash _ _).
Qed.

Lemma push_back_unfold leaf t :
  push_back leaf t =
  if decide (m_leaf_count t >= m_max_leaves t) then
    (inl (out_of_range "too many leaves"), t)
  else
    match push_back_loop
            (Z.to_nat (m_log2_root_size t - m_log2_leaf_size t + 1)) 0 leaf t with
    | (inr _, t') => (inr tt, set_leaf_count (wrap (m_leaf_count t' + 1)) t')
    | (inl e, t') => (inl e, t')
    end.
Proof.
  unfold push_back, bind, gets, modify, throw. case_decide; [done|].
  by destruct (push_back_loop _ _ _ _) as [[|[]] ?].
Qed.

(** *** [push_back] keeps the spine *)

Lemma push_back_loop_spine p (n i : nat) right block leaves t :
  Z.of_nat i + Z.of_nat (S n) ≤ address_digits →
  (i + S n = length (m_context t))%nat →
  0 ≤ m_leaf_count t →
  Z.shiftr (m_leaf_count t) (Z.of_nat i) < 2 ^ Z.of_nat n →
  spine p (m_context t) (S n) i (Z.shiftr (m_leaf_count t) (Z.of_nat i)) leaves →
  right = subtree_hash p i block →
  length block = (2 ^ i)%nat →
  ∃ context',
    push_back_loop (S n) (Z.of_nat i) right t = (inr tt, set_context context' t) ∧
    length context' = length (m_context t) ∧
    spine p context' (S n) i (Z.shiftr (m_leaf_count t) (Z.of_nat i) + 1) (leaves ++ block).
Proof.
  revert i right block leaves.
  induction n as [|n IH]; intros i right block leaves Hd Hlen Hc Hm Hs -> Hb;
    rewrite push_back_loop_S, bit_set_testbit, testbit_shiftr_odd by lia;
    assert (0 ≤ Z.shiftr (m_leaf_count t) (Z.of_nat i)) as Hm0
      by (by apply Z.shiftr_nonneg);
    rewrite spine_S in Hs;
    destruct (Z.odd (Z.shiftr (m_leaf_count t) (Z.of_nat i))) eqn:Hodd.
  - assert (Z.shiftr (m_leaf_count t) (Z.of_nat i) = 0) as Hz
      by (change (2 ^ Z.of_nat 0) with 1 in Hm; lia).
    by rewrite Hz in Hodd.
  - unfold context_store. rewrite vector_at_nat.
    destruct (m_context t !! i) eqn:Hi; [|apply lookup_ge_None in Hi; lia].
    rewrite Nat2Z.id. eexists. split; [done|]. rewrite length_insert. split; [done|].
    rewrite spine_S, odd_succ, Hodd. cbn [negb].
    exists leaves, block. rewrite list_lookup_insert_eq by lia.
    rewrite div2_succ_even by done. do 3 (split; [done|]).
    apply spine_insert_below; [lia|done].
  - destruct Hs as (older & blk & -> & Hblk & Hctx & Hs).
    rewrite vector_at_nat, Hctx.
    rewrite <- shiftr_succ in Hs by lia.
    replace (Z.of_nat i + 1) with (Z.of_nat (S i)) in * by lia.
    destruct (IH (S i) (get_concat_hash (subtree_hash p i blk) (subtree_hash p i block))
                (blk ++ block) older) as (context' & Hrun & Hlen' & Hs').
    + lia.
    + lia.
    + done.
    + replace (Z.of_nat (S i)) with (Z.of_nat i + 1) by lia.
      rewrite shiftr_succ by lia. by apply div2_lt_pow2.
    + done.
    + by rewrite subtree_hash_app.
    + rewrite length_app, Hblk, Hb. simpl. lia.
    + exists context'. split; [done|]. split; [done|].
      rewrite spine_S, odd_succ, Hodd. cbn [negb].
      rewrite div2_succ_odd by done. rewrite <- shiftr_succ by lia.
      replace (Z.of_nat i + 1) with (Z.of_nat (S i)) by lia.
      by rewrite <- app_assoc.
  - unfold context_store. rewrite vector_at_nat.
    destruct (m_context t !! i) eqn:Hi; [|apply lookup_ge_None in Hi; lia].
    rewrite Nat2Z.id. eexists. split; [done|]. rewrite length_insert. split; [done|].
    rewrite spine_S, odd_succ, Hodd. cbn [negb].
    exists leaves, block. rewrite list_lookup_insert_eq by lia.
    rewrite div2_succ_even by done. do 3 (split; [done|]).
    apply spine_insert_below; [lia|done].
Qed.

Lemma tracks_new r l w t : back_merkle_tree_new r l w = inr t → tracks t [].
Proof.
  intros Hnew. split; [by eapply wf_new|].
  revert Hnew. unfold back_merkle_tree_new. repeat case_decide; try done.
  intros [= <-]. split; [done|]. apply spine_zero.
Qed.

Lemma tracks_push t leaves leaf :
  tracks t leaves → m_leaf_count t < m_max_leaves t →
  ∃ context',
    push_back leaf t =
      (inr tt, set_leaf_count (m_leaf_count t + 1) (set_context context' t)) ∧
    tracks (set_leaf_count (m_leaf_count t + 1) (set_context context' t)) (leaves ++ [leaf]).
Proof.
  intros (Hwf & Hcount & Hs) Hlt.
  pose proof (wf_depth t Hwf) as Hd. pose proof (wf_max_leaves t Hwf) as Hmax.
  pose proof (wf_max_leaves_lt t Hwf) as Hmaxlt.
  destruct Hwf as [Hword Hleaf Hroot Hmx Hcnt Hctx Hpr].
  destruct (push_back_loop_spine (pristine_leaf t) (depth t) 0 leaf [leaf] leaves t)
    as (context' & Hrun & Hlen & Hs'); try done.
  - lia.
  - lia.
  - change (Z.of_nat 0) with 0. by rewrite Z.shiftr_0_r, <- Hmax.
  - exists context'. rewrite push_back_unfold, decide_False by lia.
    replace (Z.to_nat (m_log2_root_size t - m_log2_leaf_size t + 1)) with (S (depth t)) by lia.
    change (Z.of_nat 0) with 0 in Hrun. rewrite Hrun. simpl.
    rewrite wrap_small by lia. split; [done|].
    change (Z.of_nat 0) with 0 in Hs'. rewrite Z.shiftr_0_r in Hs'. split; [|split].
    + split; simpl; unfold depth; simpl; try done; try lia.
    + simpl. rewrite length_app. simpl. lia.
    + done.
Qed.

Lemma tracks_push_all t done leaves :
  tracks t done →
  Z.of_nat (length done + length leaves) ≤ m_max_leaves t →
  ∃ t', push_all leaves t = (inr tt, t') ∧ tracks t' (done ++ leaves) ∧
        m_max_leaves t' = m_max_leaves t ∧ depth t' = depth t ∧
        m_log2_leaf_size t' = m_log2_leaf_size t ∧
        m_log2_root_size t' = m_log2_root_size t ∧
        m_pristine_hashes t' = m_pristine_hashes t.
Proof.
  revert t done. induction leaves as [|leaf leaves IH]; intros t done Ht Hlen.
  - exists t. by rewrite app_nil_r.
  - simpl in Hlen. destruct (tracks_push t done leaf Ht) as (context' & Hrun & Ht').
    { destruct Ht as (_ & -> & _). lia. }
    destruct (IH _ _ Ht') as (t' & Hall & Htr & Hm & Hd & Hl & Hr & Hp).
    { simpl. rewrite length_app. simpl. lia. }
    exists t'. cbn [push_all]. unfold bind. rewrite Hrun, Hall.
    by rewrite <- app_assoc in Htr.
Qed.

(** *** [get_root_hash] folds the spine *)

Lemma get_root_hash_loop_spine (n i : nat) root part leaves t :
  wf t →
  (i + n = depth t)%nat →
  0 ≤ m_leaf_count t →
  Z.shiftr (m_leaf_count t) (Z.of_nat i) < 2 ^ Z.of_nat n →
  spine (pristine_leaf t) (m_context t) (S n) i
        (Z.shiftr (m_leaf_count t) (Z.of_nat i)) leaves →
  root = subtree_hash (pristine_leaf t) i part →
  (length part < 2 ^ i)%nat →
  get_root_hash_loop n (Z.of_nat i) root t =
  (inr (subtree_hash (pristine_leaf t) (depth t) (leaves ++ part)), t).
Proof.
  intros Hwf. pose proof (wf_depth t Hwf) as Hd. pose proof (wf_root t Hwf) as Hroot.
  pose proof (wf_word t Hwf) as Hword.
  revert i root part leaves.
  induction n as [|n IH]; intros i root part leaves Hi Hc Hm Hs -> Hpart;
    assert (0 ≤ Z.shiftr (m_leaf_count t) (Z.of_nat i)) as Hm0
      by (by apply Z.shiftr_nonneg);
    rewrite spine_S in Hs.
  - assert (Z.shiftr (m_leaf_count t) (Z.of_nat i) = 0) as Hz
      by (change (2 ^ Z.of_nat 0) with 1 in Hm; lia).
    rewrite Hz in Hs. destruct Hs as [_ ->].
    rewrite Nat.add_0_r in Hi. by subst i.
  - rewrite get_root_hash_loop_S, bit_set_testbit, testbit_shiftr_odd by lia.
    replace (Z.of_nat i + 1) with (Z.of_nat (S i)) by lia.
    assert (Z.shiftr (m_leaf_count t) (Z.of_nat (S i)) < 2 ^ Z.of_nat n) as Hm'.
    { replace (Z.of_nat (S i)) with (Z.of_nat i + 1) by lia.
      rewrite shiftr_succ by lia. by apply div2_lt_pow2. }
    rewrite <- shiftr_succ in Hs by lia.
    replace (Z.of_nat i + 1) with (Z.of_nat (S i)) in Hs by lia.
    destruct (Z.odd (Z.shiftr (m_leaf_count t) (Z.of_nat i))) eqn:Hodd.
    + destruct Hs as (older & blk & -> & Hblk & Hctx & Hs).
      rewrite vector_at_nat, Hctx.
      rewrite (IH (S i) _ (blk ++ part) older); try done.
      * by rewrite <- app_assoc.
      * lia.
      * by rewrite subtree_hash_app.
      * rewrite length_app, Hblk. simpl. lia.
    + rewrite wf_pristine_level by (try done; lia).
      rewrite (IH (S i) _ part leaves); try done.
      * lia.
      * rewrite subtree_hash_short; [done|lia].
      * simpl. lia.
Qed.

Lemma get_root_hash_unfold t :
  get_root_hash t =
  if negb NDEBUG && negb (bool_decide (m_leaf_count t <= m_max_leaves t)) then
    (inl assertion_failed, t)
  else if decide (m_leaf_count t < m_max_leaves t) then
    match get_hash (m_pristine_hashes t) (m_log2_leaf_size t) with
    | inr root =>
      get_root_hash_loop (Z.to_nat (m_log2_root_size t - m_log2_leaf_size t)) 0 root t
    | inl e => (inl e, t)
    end
  else context_at (m_log2_root_size t - m_log2_leaf_size t) t.
Proof.
  unfold get_root_hash, bind, gets, c_assert, ret, throw, pristine_hash_at.
  destruct NDEBUG; simpl.
  - case_decide; [|done]. by destruct (get_hash _ _).
  - destruct (bool_decide _); simpl; [|done].
    case_decide; [|done]. by destruct (get_hash _ _).
Qed.

Lemma get_root_hash_tracks t leaves :
  tracks t leaves →
  get_root_hash t = (inr (subtree_hash (pristine_leaf t) (depth t) leaves), t).
Proof.
  intros (Hwf & Hcount & Hs).
  pose proof (wf_depth t Hwf) as Hd. pose proof (wf_max_leaves t Hwf) as Hmax.
  pose proof (wf_count t Hwf) as Hcnt.
  rewrite get_root_hash_unfold.
  rewrite bool_decide_eq_true_2, andb_false_r by lia.
  case_decide as Hlt.
  - pose proof (wf_pristine_level t 0 Hwf) as Hp. rewrite Z.add_0_r in Hp.
    rewrite Hp by lia.
    replace (Z.to_nat (m_log2_root_size t - m_log2_leaf_size t)) with (depth t) by lia.
    change 0 with (Z.of_nat 0) at 1.
    rewrite (get_root_hash_loop_spine (depth t) 0 _ [] leaves); try done.
    + by rewrite app_nil_r.
    + lia.
    + change (Z.of_nat 0) with 0. by rewrite Z.shiftr_0_r, <- Hmax.
    + simpl. lia.
  - assert (m_leaf_count t = 2 ^ Z.of_nat (depth t)) as Hfull by lia.
    rewrite Hfull in Hs. apply spine_top in Hs. simpl in Hs.
    unfold context_at. rewrite <- Hd, vector_at_nat, Hs. done.
Qed.

(** *** Reachable trees *)

Lemma new_fields r l w t :
  back_merkle_tree_new r l w = inr t →
  m_log2_root_size t = r ∧ m_log2_leaf_size t = l ∧
  p_log2_word_size (m_pristine_hashes t) = w ∧ m_leaf_count t = 0.
Proof.
  unfold back_merkle_tree_new. repeat case_decide; try done. by intros [= <-].
Qed.

Lemma push_back_full leaf t :
  m_leaf_count t >= m_max_leaves t →
  push_back leaf t = (inl (out_of_range "too many leaves"), t).
Proof. intros. by rewrite push_back_unfold, decide_True. Qed.

Lemma reachable_tracks t : reachable t → ∃ leaves, tracks t leaves.
Proof.
  induction 1 as [r l w t Hnew|t leaf t' _ [leaves Ht] Hpush].
  - exists []. by eapply tracks_new.
  - destruct (decide (m_leaf_count t < m_max_leaves t)) as [Hlt|Hge].
    + destruct (tracks_push t leaves leaf Ht Hlt) as (context' & Hrun & Ht').
      exists (leaves ++ [leaf]). congruence.
    + rewrite push_back_full in Hpush by lia. done.
Qed.

Lemma reachable_wf t : reachable t → wf t.
Proof. intros Hr. by destruct (reachable_tracks t Hr) as (leaves & Hwf & _). Qed.

(** *** The next-leaf proof *)

Lemma set_sibling_hash_level x (i : nat) proof :
  (i < length (sibling_hashes proof))%nat →
  set_sibling_hash x (log2_target_size proof + Z.of_nat i) proof =
  inr {| target_address := target_address proof;
         log2_target_size := log2_target_size proof;
         log2_root_size := log2_root_size proof;
         target_hash := target_hash proof;
         root_hash := root_hash proof;
         sibling_hashes := <[i := x]> (sibling_hashes proof) |}.
Proof.
  intros Hi. unfold set_sibling_hash.
  replace (log2_target_size proof + Z.of_nat i - log2_target_size proof)
    with (Z.of_nat i) by lia.
  rewrite vector_at_nat, Nat2Z.id.
  destruct (sibling_hashes proof !! i) eqn:E; [done|].
  apply lookup_ge_None in E. lia.
Qed.

Lemma get_next_leaf_proof_loop_S n i proof h t :
  get_next_leaf_proof_loop (S n) i proof h t =
  if bit_set (m_leaf_count t) i then
    match vector_at (m_context t) i with
    | Some lhs =>
      match set_sibling_hash lhs (m_log2_leaf_size t + i) proof with
      | inr proof' => get_next_leaf_proof_loop n (i + 1) proof' (get_concat_hash lhs h) t
      | inl e => (inl e, t)
      end
    | None => (inl vector_out_of_bounds, t)
    end
  else
    match get_hash (m_pristine_hashes t) (m_log2_leaf_size t + i) with
    | inr rhs =>
      match set_sibling_hash rhs (m_log2_leaf_size t + i) proof with
      | inr proof' => get_next_leaf_proof_loop n (i + 1) proof' (get_concat_hash h rhs) t
      | inl e => (inl e, t)
      end
    | inl e => (inl e, t)
    end.
Proof.
  cbn [get_next_leaf_proof_loop]. unfold bind, gets, context_at, pristine_hash_at, lift.
  destruct (bit_set _ _).
  - destruct (vector_at _ _); [|done]. by destruct (set_sibling_hash _ _ _).
  - destruct (get_hash _ _); [done|]. by destruct (set_sibling_hash _ _ _).
Qed.

Lemma get_next_leaf_proof_loop_spec (n i : nat) proof h t :
  wf t →
  (i + n = depth t)%nat →
  log2_target_size proof = m_log2_leaf_size t →
  length (sibling_hashes proof) = depth t →
  ∃ proof' h',
    get_next_leaf_proof_loop n (Z.of_nat i) proof h t = (inr (proof', h'), t) ∧
    get_root_hash_loop n (Z.of_nat i) h t = (inr h', t) ∧
    target_address proof' = target_address proof ∧
    target_hash proof' = target_hash proof ∧
    log2_target_size proof' = log2_target_size proof ∧
    log2_root_size proof' = log2_root_size proof ∧
    length (sibling_hashes proof') = depth t ∧
    (∀ j : nat, (j < i)%nat → sibling_hashes proof' !! j = sibling_hashes proof !! j) ∧
    fold_siblings (Z.of_nat i) (m_leaf_count t) (drop i (sibling_hashes proof')) h = h'.
Proof.
  intros Hwf. pose proof (wf_depth t Hwf) as Hd. pose proof (wf_root t Hwf) as Hroot.
  pose proof (wf_word t Hwf) as Hword. pose proof (wf_context t Hwf) as Hctx.
  revert i proof h. induction n as [|n IH]; intros i proof h Hi Htarget Hlen.
  - exists proof, h. rewrite drop_ge by lia. done.
  - rewrite get_next_leaf_proof_loop_S, get_root_hash_loop_S.
    rewrite bit_set_testbit by lia. rewrite <- Htarget.
    replace (Z.of_nat i + 1) with (Z.of_nat (S i)) by lia.
    destruct (Z.testbit (m_leaf_count t) (Z.of_nat i)) eqn:Hbit.
    + rewrite vector_at_nat.
      destruct (m_context t !! i) as [lhs|] eqn:Hlhs;
        [|apply lookup_ge_None in Hlhs; lia].
      rewrite set_sibling_hash_level by lia.
      edestruct (IH (S i)) as (proof' & h' & -> & -> & Ha & Hth & Hts & Hrs & Hlen' & Hlow & Hfold);
        [lia|simpl; done|simpl; by rewrite length_insert|].
      simpl in *. exists proof', h'. do 7 (split; [done|]).
      assert (sibling_hashes proof' !! i = Some lhs) as Hsib.
      { rewrite Hlow by lia. apply list_lookup_insert_eq. lia. }
      split.
      * intros j Hj. rewrite Hlow by lia. apply list_lookup_insert_ne. lia.
      * rewrite (drop_S _ _ _ Hsib). cbn [fold_siblings]. rewrite Hbit.
        by replace (Z.of_nat i + 1) with (Z.of_nat (S i)) by lia.
    + rewrite Htarget, wf_pristine_level by (try done; lia). rewrite <- Htarget.
      rewrite set_sibling_hash_level by lia.
      edestruct (IH (S i)) as (proof' & h' & -> & -> & Ha & Hth & Hts & Hrs & Hlen' & Hlow & Hfold);
        [lia|simpl; done|simpl; by rewrite length_insert|].
      simpl in *. exists proof', h'. do 7 (split; [done|]).
      assert (sibling_hashes proof' !! i =
              Some (subtree_hash (pristine_leaf t) i [])) as Hsib.
      { rewrite Hlow by lia. apply list_lookup_insert_eq. lia. }
      split.
      * intros j Hj. rewrite Hlow by lia. apply list_lookup_insert_ne. lia.
      * rewrite (drop_S _ _ _ Hsib). cbn [fold_siblings]. rewrite Hbit.
        by replace (Z.of_nat i + 1) with (Z.of_nat (S i)) by lia.
Qed.

Lemma next_target_address t :
  wf t → m_leaf_count t < m_max_leaves t →
  wrap (Z.shiftl (m_leaf_count t) (m_log2_leaf_size t)) =
    Z.shiftl (m_leaf_count t) (m_log2_leaf_size t) ∧
  Z.shiftr (Z.shiftl (m_leaf_count t) (m_log2_leaf_size t)) (m_log2_leaf_size t) =
    m_leaf_count t.
Proof.
  intros [Hword Hleaf Hroot Hmx Hcnt _ _] Hlt. split.
  - apply wrap_small. rewrite Z.shiftl_mul_pow2 by lia.
    assert (0 < 2 ^ m_log2_leaf_size t) by (apply Z.pow_pos_nonneg; lia).
    split; [lia|].
    apply Z.lt_le_trans with (2 ^ m_log2_root_size t);
      [|apply Z.pow_le_mono_r; lia].
    assert (2 ^ m_log2_root_size t = m_max_leaves t * 2 ^ m_log2_leaf_size t) as ->.
    { rewrite Hmx, <- Z.pow_add_r by lia. f_equal. lia. }
    nia.
  - rewrite Z.shiftr_shiftl_l by lia. by rewrite Z.sub_diag, Z.shiftl_0_r.
Qed.

Lemma get_next_leaf_proof_spec t :
  wf t → m_leaf_count t < m_max_leaves t →
  ∃ proof root,
    get_next_leaf_proof t = (inr proof, t) ∧
    get_root_hash t = (inr root, t) ∧
    root_hash proof = root ∧
    verify proof = true ∧
    get_hash (m_pristine_hashes t) (m_log2_leaf_size t) = inr (target_hash proof) ∧
    target_address proof = Z.shiftl (m_leaf_count t) (m_log2_leaf_size t).
Proof.
  intros Hwf Hlt. pose proof (wf_depth t Hwf) as Hd.
  pose proof (wf_count t Hwf) as Hcnt.
  destruct (next_target_address t Hwf Hlt) as [Hwrap Hshift].
  pose proof (wf_pristine_level t 0 Hwf) as Hp. rewrite Z.add_0_r in Hp.
  set (proof0 :=
    set_target_hash (subtree_hash (pristine_leaf t) 0 [])
      (set_target_address (wrap (Z.shiftl (m_leaf_count t) (m_log2_leaf_size t)))
         (proof_new (m_log2_root_size t) (m_log2_leaf_size t)))).
  destruct (get_next_leaf_proof_loop_spec (depth t) 0 proof0
              (subtree_hash (pristine_leaf t) 0 []) t)
    as (proof' & h' & Hrun & Hroot & Ha & Hth & Hts & Hrs & Hlen & _ & Hfold);
    [done|lia|done| |].
  { simpl. rewrite length_replicate. unfold depth. lia. }
  change (Z.of_nat 0) with 0 in *. rewrite drop_0 in Hfold.
  assert (verify (set_root_hash h' proof') = true) as Hverify.
  { unfold verify. apply bool_decide_eq_true_2. simpl.
    rewrite Ha, Hth, Hts. simpl. by rewrite Hwrap, Hshift. }
  exists (set_root_hash h' proof'), h'.
  split; [|split; [|split; [done|split; [done|split]]]].
  - unfold get_next_leaf_proof, bind, gets, throw, ret, pristine_hash_at.
    rewrite decide_False by lia. rewrite Hp by lia.
    replace (Z.to_nat (m_log2_root_size t - m_log2_leaf_size t)) with (depth t) by lia.
    fold proof0. rewrite Hrun. cbn [fst snd]. rewrite Hverify. by destruct NDEBUG.
  - rewrite get_root_hash_unfold.
    rewrite bool_decide_eq_true_2, andb_false_r by lia.
    rewrite decide_True by done. rewrite Hp by lia.
    by replace (Z.to_nat (m_log2_root_size t - m_log2_leaf_size t)) with (depth t) by lia.
  - simpl. rewrite Hth. simpl. apply Hp. lia.
  - simpl. rewrite Ha. simpl. done.
Qed.

Lemma get_next_leaf_proof_loop_state n i proof h t :
  (get_next_leaf_proof_loop n i proof h t).2 = t.
Proof.
  revert i proof h. induction n as [|n IH]; intros i proof h; [done|].
  rewrite get_next_leaf_proof_loop_S.
  repeat match goal with
         | |- context [match ?x with _ => _ end] => destruct x
         end; done.
Qed.

Lemma get_next_leaf_proof_state t : (get_next_leaf_proof t).2 = t.
Proof.
  unfold get_next_leaf_proof, bind, gets, throw, ret, pristine_hash_at.
  case_decide; [done|].
  destruct (get_hash _ _); [done|].
  match goal with
  | |- context [get_next_leaf_proof_loop ?n ?i ?p ?h t] =>
    pose proof (get_next_leaf_proof_loop_state n i p h t) as Hst;
    destruct (get_next_leaf_proof_loop n i p h t) as [[e|r] t']
  end; simpl in Hst; subst; [done|].
  destruct NDEBUG; [done|]. by destruct (verify _).
Qed.

(** *** The carry of the specification *)

Lemma context_store_carry (i : nat) right t :
  context_store (Z.of_nat i) right t =
  match carry_store i right (m_context t) with
  | Some c => (inr tt, set_context c t)
  | None => (inl vector_out_of_bounds, t)
  end.
Proof.
  unfold context_store, carry_store. rewrite vector_at_nat, Nat2Z.id.
  case_decide as Hi.
  - destruct (m_context t !! i) eqn:E; [done|]. apply lookup_ge_None in E. lia.
  - by rewrite lookup_ge_None_2 by lia.
Qed.

Lemma push_back_loop_carry bits (n i : nat) right t :
  Z.shiftr (m_leaf_count t) (Z.of_nat i) = Zpos bits →
  Zpos bits < 2 ^ Z.of_nat n →
  Z.of_nat i + Z.of_nat (S n) ≤ address_digits →
  push_back_loop (S n) (Z.of_nat i) right t =
  match carry_scan bits i right (m_context t) with
  | Some c => (inr tt, set_context c t)
  | None => (inl vector_out_of_bounds, t)
  end.
Proof.
  revert n i right.
  induction bits as [bits IH|bits _|]; intros n i right Hshift Hlt Hd;
    rewrite push_back_loop_S, bit_set_testbit, testbit_shiftr_odd, Hshift by lia;
    cbn [Z.odd carry_scan].
  - destruct n as [|n]; [change (2 ^ Z.of_nat 0) with 1 in Hlt; lia|].
    rewrite vector_at_nat. destruct (m_context t !! i); [|done].
    replace (Z.of_nat i + 1) with (Z.of_nat (S i)) by lia. apply IH.
    + replace (Z.of_nat (S i)) with (Z.of_nat i + 1) by lia.
      by rewrite shiftr_succ, Hshift by lia.
    + rewrite Nat2Z.inj_succ, Z.pow_succ_r in Hlt by lia. lia.
    + lia.
  - apply context_store_carry.
  - destruct n as [|n]; [change (2 ^ Z.of_nat 0) with 1 in Hlt; lia|].
    rewrite vector_at_nat. destruct (m_context t !! i); [|done].
    rewrite push_back_loop_S, bit_set_testbit, testbit_shiftr_odd by lia.
    rewrite shiftr_succ, Hshift by lia. cbn [Z.div2 Z.odd].
    replace (Z.of_nat i + 1) with (Z.of_nat (S i)) by lia.
    apply context_store_carry.
Qed.

Lemma carry_store_is_Some (i : nat) right context :
  (i < length context)%nat → is_Some (carry_store i right context).
Proof. intros. unfold carry_store. by rewrite decide_True. Qed.

Lemma carry_scan_is_Some bits (n i : nat) right context :
  Zpos bits < 2 ^ Z.of_nat n →
  (i + n < length context)%nat →
  is_Some (carry_scan bits i right context).
Proof.
  revert n i right.
  induction bits as [bits IH|bits _|]; intros n i right Hlt Hlen; cbn [carry_scan].
  - destruct n as [|n]; [change (2 ^ Z.of_nat 0) with 1 in Hlt; lia|].
    destruct (context !! i) eqn:E; [|apply lookup_ge_None in E; lia].
    apply (IH n); [|lia].
    rewrite Nat2Z.inj_succ, Z.pow_succ_r in Hlt by lia. lia.
  - apply carry_store_is_Some. lia.
  - destruct n as [|n]; [change (2 ^ Z.of_nat 0) with 1 in Hlt; lia|].
    destruct (context !! i) eqn:E; [|apply lookup_ge_None in E; lia].
    apply carry_store_is_Some. lia.
Qed.

Lemma push_back_refines t leaf :
  wf t → m_leaf_count t < m_max_leaves t →
  ∃ t', push_back leaf t = (inr tt, t') ∧ spec_push_back leaf t = Some t'.
Proof.
  intros Hwf Hlt.
  pose proof (wf_depth t Hwf) as Hd. pose proof (wf_max_leaves t Hwf) as Hmax.
  pose proof (wf_max_leaves_lt t Hwf) as Hmaxlt.
  destruct Hwf as [Hword Hleaf Hroot Hmx Hcnt Hctx Hpr].
  assert (push_back_loop (S (depth t)) 0 leaf t =
          match carry (m_leaf_count t) leaf (m_context t) with
          | Some c => (inr tt, set_context c t)
          | None => (inl vector_out_of_bounds, t)
          end ∧ is_Some (carry (m_leaf_count t) leaf (m_context t))) as [Hloop Hsome].
  { unfold carry. destruct (m_leaf_count t) as [|bits|bits] eqn:Hc; [|  |lia].
    - split; [|apply carry_store_is_Some; lia].
      rewrite push_back_loop_S, bit_set_testbit by lia. rewrite Hc. cbn [Z.testbit Z.odd].
      apply (context_store_carry 0).
    - split; [|apply (carry_scan_is_Some bits (depth t)); lia].
      apply (push_back_loop_carry bits (depth t) 0); rewrite ?Hc; try done; lia. }
  rewrite push_back_unfold, decide_False by lia.
  replace (Z.to_nat (m_log2_root_size t - m_log2_leaf_size t + 1)) with (S (depth t)) by lia.
  rewrite Hloop. unfold spec_push_back.
  destruct Hsome as [c ->].
  eexists. split; [done|]. simpl. by rewrite wrap_small by lia.
Qed.

Lemma reachable_push_all t leaves t' :
  reachable t → push_all leaves t = (inr tt, t') → reachable t'.
Proof.
  revert t. induction leaves as [|leaf leaves IH]; intros t Hr; cbn [push_all].
  - by intros [= <-].
  - unfold bind. destruct (push_back leaf t) as [[e|[]] t1] eqn:Hpush; [done|].
    apply IH. by eapply reachable_push.
Qed.

(** *** The properties of the specification *)

(** C1. Root equivalence: after a tree is constructed and any list of at
    most [max_leaves] leaves is pushed, [get_root_hash] returns the root of
    the fully specified tree whose first leaves are the pushed ones, in
    push order, and whose other leaves are the pristine leaf hash; on the
    tree as constructed it returns the pristine hash of [log2_root_size]. *)
Theorem root_equivalence r l w t0 leaves :
  back_merkle_tree_new r l w = inr t0 →
  Z.of_nat (length leaves) ≤ m_max_leaves t0 →
  ∃ t root p top,
    push_all leaves t0 = (inr tt, t) ∧
    m_leaf_count t = Z.of_nat (length leaves) ∧
    get_root_hash t = (inr root, t) ∧
    get_hash (m_pristine_hashes t0) l = inr p ∧
    merkle_root (Z.to_nat (r - l))
      (leaves ++ replicate (2 ^ Z.to_nat (r - l) - length leaves) p) = Some root ∧
    get_hash (m_pristine_hashes t0) r = inr top ∧
    get_root_hash t0 = (inr top, t0).
Proof.
  intros Hnew Hlen.
  pose proof (tracks_new _ _ _ _ Hnew) as Ht0.
  destruct (new_fields _ _ _ _ Hnew) as (Hr & Hl & Hw & Hc).
  pose proof Ht0 as (Hwf0 & _).
  pose proof (wf_depth t0 Hwf0) as Hd. pose proof (wf_max_leaves t0 Hwf0) as Hmax.
  destruct (tracks_push_all t0 [] leaves Ht0)
    as (t & Hall & Ht & Hm & Hdt & Hlt & Hrt & Hpt); [simpl; lia|].
  simpl in Ht.
  assert (pristine_leaf t = pristine_leaf t0) as Hp by (unfold pristine_leaf; congruence).
  assert (Z.to_nat (r - l) = depth t0) as -> by (unfold depth; congruence).
  exists t, (subtree_hash (pristine_leaf t0) (depth t0) leaves), (pristine_leaf t0),
    (subtree_hash (pristine_leaf t0) (depth t0) []).
  split; [done|]. split; [by destruct Ht as (_ & ? & _)|].
  split; [by rewrite (get_root_hash_tracks t leaves Ht), Hp, Hdt|].
  split; [|split; [|split]].
  - pose proof (wf_pristine_level t0 0 Hwf0) as E. rewrite Z.add_0_r, Hl in E.
    apply E. lia.
  - rewrite (merkle_root_full (pristine_leaf t0)).
    + by rewrite subtree_hash_pad.
    + rewrite length_app, length_replicate.
      assert (length leaves ≤ 2 ^ depth t0)%nat; [|lia].
      apply Nat2Z.inj_le. rewrite Nat2Z.inj_pow. simpl. lia.
  - rewrite <- (wf_pristine_level t0 (depth t0) Hwf0) by lia. f_equal. lia.
  - by rewrite (get_root_hash_tracks t0 [] Ht0).
Qed.

(** C2. [push_back] below capacity does what the carry of the
    specification does (scan the bits of [leaf_count] from bit 0, combine
    at a 1, store and stop at the first 0, then increment), and after
    exactly four pushes into a tree as constructed, of depth 2 or more,
    [context[2]] holds [H(H(L0,L1),H(L2,L3))]. *)
Theorem push_back_carry r l w t0 t leaf L0 L1 L2 L3 :
  back_merkle_tree_new r l w = inr t0 →
  reachable t →
  m_leaf_count t < m_max_leaves t →
  (∃ t', push_back leaf t = (inr tt, t') ∧ spec_push_back leaf t = Some t') ∧
  (2 ≤ r - l →
   ∃ t4, push_all [L0; L1; L2; L3] t0 = (inr tt, t4) ∧
         m_context t4 !! 2%nat =
           Some (get_concat_hash (get_concat_hash L0 L1) (get_concat_hash L2 L3))).
Proof.
  intros Hnew Hreach Hlt. split.
  { apply push_back_refines; [by apply reachable_wf|done]. }
  intros Hdepth.
  pose proof (tracks_new _ _ _ _ Hnew) as Ht0.
  destruct (new_fields _ _ _ _ Hnew) as (Hr & Hl & Hw & Hc).
  pose proof Ht0 as (Hwf0 & _).
  pose proof (wf_depth t0 Hwf0) as Hd. pose proof (wf_max_leaves t0 Hwf0) as Hmax.
  destruct (tracks_push_all t0 [] [L0; L1; L2; L3] Ht0)
    as (t4 & Hall & (Hwf4 & Hc4 & Hs) & Hm & Hdt & _).
  { simpl length. rewrite Hmax. change (Z.of_nat (0 + 4)) with (2 ^ 2).
    apply Z.pow_le_mono_r; lia. }
  exists t4. split; [done|].
  rewrite Hc4, Hdt in Hs. simpl length in Hs.
  destruct (depth t0) as [|[|d]] eqn:Ed; [lia|lia|].
  rewrite !spine_S in Hs. cbn [Z.of_nat Pos.of_succ_nat Pos.succ Z.odd Z.div2 Pos.div2] in Hs.
  destruct Hs as (older & block & Happ & Hblock & Hctx & _).
  assert (older = []) as ->.
  { apply (f_equal length) in Happ. simpl in Happ. rewrite length_app, Hblock in Happ.
    simpl in Happ. destruct older; [done|simpl in Happ; lia]. }
  simpl in Happ. subst block. by rewrite Hctx.
Qed.

(** C3. Construction fails, with an out-of-range error, exactly when a
    size is negative, or the leaf is larger than the root, or the word is
    larger than the leaf, or the root does not fit the address type; a
    failure yields no tree, and every other triple yields one. *)
Theorem construction_errors r l w :
  ((∃ what, back_merkle_tree_new r l w = inl (out_of_range what)) ↔
   (r < 0 ∨ l < 0 ∨ w < 0 ∨ l > r ∨ w > l ∨ r >= address_digits)) ∧
  ((∃ t, back_merkle_tree_new r l w = inr t) ↔
   ¬ (r < 0 ∨ l < 0 ∨ w < 0 ∨ l > r ∨ w > l ∨ r >= address_digits)) ∧
  (∀ e, back_merkle_tree_new r l w = inl e → ∃ what, e = out_of_range what).
Proof.
  unfold back_merkle_tree_new.
  repeat case_decide; (split; [|split]);
    first
      [ intros e [= <-]; eauto
      | intros e [=]
      | split; [intros _; lia|eauto]
      | split; [intros [? [=]]|intros; lia]
      | split; [intros [? [=]]|intros Hn; exfalso; apply Hn; lia] ].
Qed.

Lemma get_next_leaf_proof_full t :
  m_leaf_count t >= m_max_leaves t →
  get_next_leaf_proof t = (inl (out_of_range "tree is full"), t).
Proof.
  intros. unfold get_next_leaf_proof, bind, gets, throw. by rewrite decide_True.
Qed.

Lemma reachable_capacity s leaf :
  reachable s →
  m_leaf_count s ≤ m_max_leaves s ∧
  (m_leaf_count s < m_max_leaves s →
     ∃ s' proof,
       push_back leaf s = (inr tt, s') ∧
       m_leaf_count s' = m_leaf_count s + 1 ∧
       m_max_leaves s' = m_max_leaves s ∧
       get_next_leaf_proof s = (inr proof, s)) ∧
  (∀ e, (push_back leaf s).1 = inl e ↔
        m_leaf_count s = m_max_leaves s ∧ e = out_of_range "too many leaves") ∧
  (∀ e, (get_next_leaf_proof s).1 = inl e ↔
        m_leaf_count s = m_max_leaves s ∧ e = out_of_range "tree is full").
Proof.
  intros Hreach. destruct (reachable_tracks s Hreach) as [leaves Hs].
  pose proof Hs as (Hwf & _). pose proof (wf_count s Hwf) as Hcnt.
  assert (m_leaf_count s < m_max_leaves s →
          ∃ s' proof,
            push_back leaf s = (inr tt, s') ∧
            m_leaf_count s' = m_leaf_count s + 1 ∧
            m_max_leaves s' = m_max_leaves s ∧
            get_next_leaf_proof s = (inr proof, s)) as Hpush.
  { intros Hlt. destruct (tracks_push s leaves leaf Hs Hlt) as (context' & Hrun & _).
    destruct (get_next_leaf_proof_spec s Hwf Hlt) as (proof & _ & Hproof & _).
    eexists _, proof. by rewrite Hrun. }
  split; [lia|]. split; [done|]. split; intros e.
  - destruct (decide (m_leaf_count s < m_max_leaves s)) as [Hlt|Hge].
    + destruct (Hpush Hlt) as (s' & _ & -> & _). simpl. split; [done|lia].
    + rewrite push_back_full by lia. simpl.
      split; [intros [= <-]|intros [_ ->]]; auto with lia.
  - destruct (decide (m_leaf_count s < m_max_leaves s)) as [Hlt|Hge].
    + destruct (Hpush Hlt) as (_ & proof & _ & _ & _ & ->). simpl. split; [done|lia].
    + rewrite get_next_leaf_proof_full by lia. simpl.
      split; [intros [= <-]|intros [_ ->]]; auto with lia.
Qed.

(** C4. A constructed tree takes every push while
    [leaf_count < max_leaves], each push counting one leaf, up to
    [leaf_count = max_leaves - 1] included, so that pushing [max_leaves]
    leaves fills it; on the full tree [push_back] and
    [get_next_leaf_proof] fail with the error of a full tree and change
    nothing. In any state whatever with [leaf_count >= max_leaves] both
    are refused; on the states a tree goes through they fail exactly when
    [leaf_count = max_leaves], and in no other way. *)
Theorem tree_full_exactly r l w t0 leaves leaf :
  back_merkle_tree_new r l w = inr t0 →
  Z.of_nat (length leaves) ≤ m_max_leaves t0 →
  ∃ t,
    push_all leaves t0 = (inr tt, t) ∧
    reachable t ∧
    m_leaf_count t = Z.of_nat (length leaves) ∧
    m_max_leaves t = m_max_leaves t0 ∧
    (m_leaf_count t < m_max_leaves t →
       ∃ t' proof,
         push_back leaf t = (inr tt, t') ∧
         m_leaf_count t' = m_leaf_count t + 1 ∧
         m_max_leaves t' = m_max_leaves t ∧
         get_next_leaf_proof t = (inr proof, t)) ∧
    (m_leaf_count t = m_max_leaves t →
       push_back leaf t = (inl (out_of_range "too many leaves"), t) ∧
       get_next_leaf_proof t = (inl (out_of_range "tree is full"), t)) ∧
    (∀ s, m_leaf_count s >= m_max_leaves s →
       push_back leaf s = (inl (out_of_range "too many leaves"), s) ∧
       get_next_leaf_proof s = (inl (out_of_range "tree is full"), s)) ∧
    (∀ s, reachable s →
       m_leaf_count s ≤ m_max_leaves s ∧
       (m_leaf_count s < m_max_leaves s → ∃ s', push_back leaf s = (inr tt, s')) ∧
       (∀ e, (push_back leaf s).1 = inl e ↔
             m_leaf_count s = m_max_leaves s ∧ e = out_of_range "too many leaves") ∧
       (∀ e, (get_next_leaf_proof s).1 = inl e ↔
             m_leaf_count s = m_max_leaves s ∧ e = out_of_range "tree is full")).
Proof.
  intros Hnew Hlen.
  pose proof (tracks_new _ _ _ _ Hnew) as Ht0.
  destruct (tracks_push_all t0 [] leaves Ht0)
    as (t & Hall & Ht & Hm & _); [simpl; lia|].
  simpl in Ht. pose proof Ht as (_ & Hcount & _).
  assert (reachable t) as Hreach.
  { apply (reachable_push_all t0 leaves); [by eapply reachable_new|done]. }
  assert (∀ s, m_leaf_count s >= m_max_leaves s →
            push_back leaf s = (inl (out_of_range "too many leaves"), s) ∧
            get_next_leaf_proof s = (inl (out_of_range "tree is full"), s)) as Hfull.
  { intros s Hs. by rewrite push_back_full, get_next_leaf_proof_full. }
  exists t. do 4 (split; [done|]).
  split; [apply (reachable_capacity t leaf Hreach)|].
  split; [intros Heq; apply Hfull; lia|]. split; [done|].
  intros s Hs. destruct (reachable_capacity s leaf Hs) as (Hle & Hpush & Hp & Hn).
  split; [done|]. split; [|done].
  intros Hlt. destruct (Hpush Hlt) as (s' & _ & ? & _). eauto.
Qed.

(** C5. Next-leaf proof soundness: on a reachable tree that is not full,
    [get_next_leaf_proof] returns a proof that verifies, whose target hash
    is the pristine leaf hash, whose target address is
    [leaf_count << log2_leaf_size], and whose root hash is what
    [get_root_hash] returns on the same tree. *)
Theorem next_leaf_proof_sound t :
  reachable t →
  m_leaf_count t < m_max_leaves t →
  ∃ proof root,
    get_next_leaf_proof t = (inr proof, t) ∧
    verify proof = true ∧
    get_hash (m_pristine_hashes t) (m_log2_leaf_size t) = inr (target_hash proof) ∧
    target_address proof = Z.shiftl (m_leaf_count t) (m_log2_leaf_size t) ∧
    get_root_hash t = (inr root, t) ∧
    root_hash proof = root.
Proof.
  intros Hreach Hlt.
  destruct (get_next_leaf_proof_spec t (reachable_wf t Hreach) Hlt)
    as (proof & root & ? & ? & ? & ? & ? & ?).
  by exists proof, root.
Qed.

(** C6. [get_root_hash] is total on reachable trees: it returns a hash and
    leaves the tree as it was; it does not throw, its assertion holds,
    and no access to the context or to the pristine table is out of
    bounds (each of these is a failure of the model). *)
Theorem get_root_hash_total t :
  reachable t → ∃ root, get_root_hash t = (inr root, t).
Proof.
  intros Hreach. destruct (reachable_tracks t Hreach) as [leaves Ht].
  eexists. by apply get_root_hash_tracks.
Qed.

(** C9. [push_back] on a full tree fails and changes nothing: the state
    after the call is the state before it, and so is the root. *)
Theorem push_back_atomic t leaf :
  m_leaf_count t = m_max_leaves t →
  push_back leaf t = (inl (out_of_range "too many leaves"), t) ∧
  get_root_hash (push_back leaf t).2 = get_root_hash t.
Proof. intros Hfull. rewrite push_back_full by lia. done. Qed.

(** C10. [get_next_leaf_proof] does not modify the tree, whatever its
    state, and two calls in a row return the same proof; on a reachable
    tree that is not full they do return one. *)
Theorem get_next_leaf_proof_pure t :
  (get_next_leaf_proof t).2 = t ∧
  (let* first := get_next_leaf_proof in
   let* second := get_next_leaf_proof in
   ret (first, second)) t =
  (match (get_next_leaf_proof t).1 with
   | inr proof => inr (proof, proof)
   | inl e => inl e
   end, t) ∧
  (reachable t → m_leaf_count t < m_max_leaves t →
   ∃ proof, get_next_leaf_proof t = (inr proof, t)).
Proof.
  pose proof (get_next_leaf_proof_state t) as Hst. split; [done|]. split.
  - unfold bind, ret. destruct (get_next_leaf_proof t) as [[e|proof] t'] eqn:Hrun;
      simpl in *; subst t'; [done|].
    by rewrite Hrun.
  - intros Hreach Hlt.
    destruct (get_next_leaf_proof_spec t (reachable_wf t Hreach) Hlt)
      as (proof & _ & ? & _).
    by exists proof.
Qed.

End facts.

(** *** The properties on the example trees *)
Section witnesses.
Import Examples.
#[local] Existing Instance symbolic_hasher.
#[local] Existing Instance debug_build.

Lemma empty_tree_new : back_merkle_tree_new 3 0 0 = inr empty_tree.
Proof. reflexivity. Qed.

Lemma tree_of_three_reachable : reachable tree_of_three.
Proof.
  apply (reachable_push_all empty_tree three_leaves); [|reflexivity].
  apply (reachable_new 3 0 0). reflexivity.
Qed.

Lemma root_equivalence_witness :
  back_merkle_tree_new 3 0 0 = inr empty_tree ∧
  Z.of_nat (length three_leaves) ≤ m_max_leaves empty_tree ∧
  ∃ t root p top,
    push_all three_leaves empty_tree = (inr tt, t) ∧
    m_leaf_count t = Z.of_nat (length three_leaves) ∧
    get_root_hash t = (inr root, t) ∧
    get_hash (m_pristine_hashes empty_tree) 0 = inr p ∧
    merkle_root (Z.to_nat (3 - 0))
      (three_leaves ++ replicate (2 ^ Z.to_nat (3 - 0) - length three_leaves) p) =
      Some root ∧
    get_hash (m_pristine_hashes empty_tree) 3 = inr top ∧
    get_root_hash empty_tree = (inr top, empty_tree).
Proof.
  split; [reflexivity|]. split; [simpl; lia|].
  apply (root_equivalence 3 0 0 empty_tree three_leaves); [reflexivity|simpl; lia].
Defined.

Lemma push_back_carry_witness :
  back_merkle_tree_new 3 0 0 = inr empty_tree ∧
  reachable tree_of_three ∧
  m_leaf_count tree_of_three < m_max_leaves tree_of_three ∧
  (∃ t', push_back (Leaf 3) tree_of_three = (inr tt, t') ∧
         spec_push_back (Leaf 3) tree_of_three = Some t') ∧
  (2 ≤ 3 - 0 →
   ∃ t4, push_all [Leaf 0; Leaf 1; Leaf 2; Leaf 3] empty_tree = (inr tt, t4) ∧
         m_context t4 !! 2%nat =
           Some (get_concat_hash (get_concat_hash (Leaf 0) (Leaf 1))
                                 (get_concat_hash (Leaf 2) (Leaf 3)))).
Proof.
  split; [reflexivity|]. split; [exact tree_of_three_reachable|]. split; [simpl; lia|].
  apply (push_back_carry 3 0 0 empty_tree tree_of_three);
    [reflexivity|exact tree_of_three_reachable|simpl; lia].
Defined.

Lemma tree_full_exactly_witness :
  back_merkle_tree_new 3 0 0 = inr empty_tree ∧
  Z.of_nat (length eight_leaves) ≤ m_max_leaves empty_tree ∧
  push_all eight_leaves empty_tree = (inr tt, full_tree) ∧
  m_leaf_count full_tree = m_max_leaves full_tree ∧
  push_back (Leaf 8) full_tree = (inl (out_of_range "too many leaves"), full_tree) ∧
  get_next_leaf_proof full_tree = (inl (out_of_range "tree is full"), full_tree).
Proof.
  split; [reflexivity|]. split; [simpl; lia|].
  destruct (tree_full_exactly 3 0 0 empty_tree eight_leaves (Leaf 8))
    as (t & Hall & _ & _ & _ & _ & Hfull & _); [reflexivity|simpl; lia|].
  assert (push_all eight_leaves empty_tree = (inr tt, full_tree)) as Hrun
    by reflexivity.
  rewrite Hrun in Hall. injection Hall as <-.
  split; [exact Hrun|]. split; [reflexivity|].
  apply Hfull. reflexivity.
Defined.

Lemma next_leaf_proof_sound_witness :
  reachable tree_of_three ∧
  m_leaf_count tree_of_three < m_max_leaves tree_of_three ∧
  ∃ proof root,
    get_next_leaf_proof tree_of_three = (inr proof, tree_of_three) ∧
    verify proof = true ∧
    get_hash (m_pristine_hashes tree_of_three) (m_log2_leaf_size tree_of_three) =
      inr (target_hash proof) ∧
    target_address proof =
      Z.shiftl (m_leaf_count tree_of_three) (m_log2_leaf_size tree_of_three) ∧
    get_root_hash tree_of_three = (inr root, tree_of_three) ∧
    root_hash proof = root.
Proof.
  split; [exact tree_of_three_reachable|]. split; [simpl; lia|].
  apply (next_leaf_proof_sound tree_of_three); [exact tree_of_three_reachable|simpl; lia].
Defined.

Lemma get_root_hash_total_witness :
  reachable tree_of_three ∧
  ∃ root, get_root_hash tree_of_three = (inr root, tree_of_three).
Proof.
  split; [exact tree_of_three_reachable|].
  apply (get_root_hash_total tree_of_three). exact tree_of_three_reachable.
Defined.

Lemma push_back_atomic_witness :
  m_leaf_count full_tree = m_max_leaves full_tree ∧
  push_back (Leaf 8) full_tree = (inl (out_of_range "too many leaves"), full_tree) ∧
  get_root_hash (push_back (Leaf 8) full_tree).2 = get_root_hash full_tree.
Proof.
  split; [reflexivity|]. apply (push_back_atomic full_tree (Leaf 8)). reflexivity.
Defined.

Lemma get_next_leaf_proof_pure_witness :
  reachable tree_of_three ∧
  m_leaf_count tree_of_three < m_max_leaves tree_of_three ∧
  (get_next_leaf_proof tree_of_three).2 = tree_of_three ∧
  (let* first := get_next_leaf_proof in
   let* second := get_next_leaf_proof in
   ret (first, second)) tree_of_three =
  (match (get_next_leaf_proof tree_of_three).1 with
   | inr proof => inr (proof, proof)
   | inl e => inl e
   end, tree_of_three) ∧
  ∃ proof, get_next_leaf_proof tree_of_three = (inr proof, tree_of_three).
Proof.
  split; [exact tree_of_three_reachable|]. split; [simpl; lia|].
  destruct (get_next_leaf_proof_pure tree_of_three) as (Hstate & Hsame & Hsome).
  split; [exact Hstate|]. split; [exact Hsame|].
  apply Hsome; [exact tree_of_three_reachable|simpl; lia].
Defined.

End witnesses.
End BackMerkleTreeFacts.

(** ** The state-access interface *)
Module StateAccessFacts.
Import StateAccess.

(** C7. Every [read_X] and [write_X] of the interface forwards to the
    [do_read_X] and [do_write_X] of the derived class, except
    [read_memory]: it forwards to [do_write_memory], for every derived
    class, and so under the direct access a [read_memory] of the value 1
    at address 0 of the empty machine stores 1 there. *)
Theorem read_memory_writes :
  (∀ (DERIVED machine_state pma_entry : Type)
     (impl : derived DERIVED machine_state pma_entry) entry paddr val size_log2 d s,
     read_register = do_read_register ∧
     write_register = do_write_register ∧
     read = do_read ∧
     write = do_write ∧
     read_pma = do_read_pma ∧
     write_memory = do_write_memory ∧
     read_memory entry paddr val size_log2 d s =
       do_write_memory entry paddr val size_log2 d s) ∧
  memory empty_machine 0 = None ∧
  memory
    (@read_memory _ _ _ direct_access {| pma_start := 0; pma_length := 8 |} 0 1 3
       tt empty_machine).2 0 = Some 1.
Proof. split; [done|]. split; reflexivity. Qed.

End StateAccessFacts.

(** ** The Lua bindings of the verifier entry points *)
Module CluaMachineFacts.
Import CluaMachine.

Section facts.
Context `{!machine_c_api} `{!argument_checks}.

Lemma reset_keeps_top (st : list lua_value) x y z :
  last (<[length st := z]> ((st ++ [x]) ++ [y])) = Some y.
Proof.
  rewrite insert_app_l by (rewrite length_app; simpl; lia).
  apply last_snoc.
Qed.

(** What is left of a binding once its arguments are checked: the call,
    then the error or the result. *)
Lemma call_and_report v call (st : list lua_value) log a out w' :
  (let* r := cm_call v call in
   if decide (r ≠ 0) then
     let* msg := last_error_message in luaL_error msg
   else
     let* _ := lua_pushnumber 1 in
     let* _ := managed_reset (length st) in
     ret 1)
    {| stack := st ++ [LManagedLog log]; api := a; verifier_calls := [] |} = (out, w') →
  (∀ v' r, (v', r) ∈ verifier_calls w' → r ≠ 0 →
     out = inl (cm_get_last_error_message (api w'))) ∧
  (∀ n, out = inr n →
     n = 1 ∧ verifier_calls w' = [(v, 0)] ∧ last (stack w') = Some (LNumber 1)).
Proof.
  unfold bind, cm_call, last_error_message, gets, luaL_error, throw, lua_pushnumber,
    managed_reset, modify, with_stack, ret. simpl.
  destruct (call a) as [r a'] eqn:Hcall. simpl.
  case_decide as Hr; simpl; intros [= <- <-]; simpl.
  - split; [done|]. intros n [=].
  - assert (r = 0) as -> by (destruct (decide (r = 0)); [done|by destruct Hr]).
    split.
    + intros v' r' Hin%list_elem_of_singleton Hr'. by injection Hin as -> ->.
    + intros n [= <-]. by rewrite reset_keeps_top.
Qed.

(** A binding that fails before its call has called no verifier. *)
Lemma no_call v (msg : string) (w : world) :
  verifier_calls w = [] →
  (∀ v' r, (v', r) ∈ verifier_calls w → r ≠ 0 →
     inl msg = @inl string Z (cm_get_last_error_message (api w))) ∧
  (∀ n, @inl string Z msg = inr n →
     n = 1 ∧ verifier_calls w = [(v, 0)] ∧ last (stack w) = Some (LNumber 1)).
Proof.
  intros ->. split; [|done]. intros v' r Hin. by apply elem_of_nil in Hin.
Qed.

Ltac run_binding :=
  intros [st a calls] out w' Hcalls; simpl in Hcalls; subst calls;
  unfold bind at 1; unfold lua_settop at 1, modify at 1, with_stack at 1; simpl;
  repeat
    (unfold bind at 1;
     first
       [ progress unfold luaL_checkinteger at 1, check at 1
       | progress unfold luaL_checklstring at 1, check at 1
       | progress unfold clua_check_cm_hash at 1, check at 1
       | progress unfold clua_check_cm_access_log at 1, check at 1
       | progress unfold clua_push_to at 1, with_stack at 1
       | progress unfold managed_get at 1, gets at 1 ];
     simpl;
     try match goal with
         | |- context [match ?f ?stk ?idx with inl _ => _ | inr _ => _ end] =>
           destruct (f stk idx) eqn:?;
           [intros [= <- <-]; by apply no_call|]
         end);
  try rewrite list_lookup_middle by done;
  apply call_and_report.

Lemma step_uarch_log_surfaces :
  surfaces_failures step_uarch_log machine_class_index_verify_step_uarch_log.
Proof. unfold machine_class_index_verify_step_uarch_log. run_binding. Qed.

Lemma step_uarch_state_transition_surfaces :
  surfaces_failures step_uarch_state_transition
    machine_class_index_verify_step_uarch_state_transition.
Proof. unfold machine_class_index_verify_step_uarch_state_transition. run_binding. Qed.

Lemma reset_uarch_log_surfaces :
  surfaces_failures reset_uarch_log machine_class_index_verify_reset_uarch_log.
Proof. unfold machine_class_index_verify_reset_uarch_log. run_binding. Qed.

Lemma reset_uarch_state_transition_surfaces :
  surfaces_failures reset_uarch_state_transition
    machine_class_index_verify_reset_uarch_state_transition.
Proof. unfold machine_class_index_verify_reset_uarch_state_transition. run_binding. Qed.

Lemma send_cmio_response_log_surfaces :
  surfaces_failures send_cmio_response_log
    machine_class_index_verify_send_cmio_response_log.
Proof. unfold machine_class_index_verify_send_cmio_response_log. run_binding. Qed.

Lemma send_cmio_response_state_transition_surfaces :
  surfaces_failures send_cmio_response_state_transition
    machine_class_index_verify_send_cmio_response_state_transition.
Proof.
  unfold machine_class_index_verify_send_cmio_response_state_transition. run_binding.
Qed.

(** C8. Every verifier binding, run from a world where no verifier was
    called yet, raises a Lua error carrying the last error message
    whenever the verifier call it makes returns nonzero, and returns (one
    result, the number 1 pushed last) only after its verifier returned
    zero. *)
Theorem verifier_failures_surface name v f w out w' :
  (name, v, f) ∈ verifier_bindings →
  verifier_calls w = [] →
  f w = (out, w') →
  (∀ v' r, (v', r) ∈ verifier_calls w' → r ≠ 0 →
     out = inl (cm_get_last_error_message (api w'))) ∧
  (∀ n, out = inr n →
     n = 1 ∧ verifier_calls w' = [(v, 0)] ∧ last (stack w') = Some (LNumber 1)).
Proof.
  unfold verifier_bindings. rewrite !elem_of_cons, elem_of_nil.
  intros [Hin|[Hin|[Hin|[Hin|[Hin|[Hin|[]]]]]]]; injection Hin as -> -> ->.
  - apply step_uarch_log_surfaces.
  - apply step_uarch_state_transition_surfaces.
  - apply reset_uarch_log_surfaces.
  - apply reset_uarch_state_transition_surfaces.
  - apply send_cmio_response_log_surfaces.
  - apply send_cmio_response_state_transition_surfaces.
Qed.

End facts.

(** *** The bindings on the small API *)
Section witnesses.
#[local] Existing Instance toy_api.
#[local] Existing Instance toy_checks.

Lemma verifier_failures_surface_witness :
  ("verify_step_uarch_log", step_uarch_log, machine_class_index_verify_step_uarch_log)
    ∈ verifier_bindings ∧
  verifier_calls rejected_call = [] ∧
  machine_class_index_verify_step_uarch_log rejected_call =
    (inl "invalid access proof", after_rejected_call) ∧
  (∀ v' r, (v', r) ∈ verifier_calls after_rejected_call → r ≠ 0 →
     @inl string Z "invalid access proof" =
       inl (cm_get_last_error_message (api after_rejected_call))) ∧
  (∀ n, @inl string Z "invalid access proof" = inr n →
     n = 1 ∧ verifier_calls after_rejected_call = [(step_uarch_log, 0)] ∧
     last (stack after_rejected_call) = Some (LNumber 1)).
Proof.
  split; [apply list_elem_of_here|]. split; [reflexivity|]. split; [reflexivity|].
  apply (verifier_failures_surface "verify_step_uarch_log" step_uarch_log
           machine_class_index_verify_step_uarch_log rejected_call);
    [apply list_elem_of_here|reflexivity|reflexivity].
Defined.

End witnesses.
End CluaMachineFacts.

(** * Further properties of the code *)

(** ** The back Merkle tree *)
Module BackMerkleTreeMore.
Import BackMerkleTree BackMerkleTreeFacts.

Section facts.
Context {hash : Type} `{!Hasher hash} `{!Build}.

Implicit Types (t : back_merkle_tree hash) (proof : merkle_tree_proof hash).
Implicit Types (h root leaf right : hash) (leaves context : list hash).

(** *** What the methods leave alone *)

Lemma get_root_hash_loop_state n i root t : (get_root_hash_loop n i root t).2 = t.
Proof.
  revert i root. induction n as [|n IH]; intros i root; [done|].
  rewrite get_root_hash_loop_S.
  repeat match goal with
         | |- context [match ?x with _ => _ end] => destruct x
         end; done.
Qed.

(** X6. [get_root_hash] writes nothing: the tree after the call is the
    tree before it, in every state and also when the call fails. *)
Theorem get_root_hash_const t : (get_root_hash t).2 = t.
Proof.
  rewrite get_root_hash_unfold.
  destruct (_ && _); [done|]. case_decide.
  - destruct (get_hash _ _); [done|]. apply get_root_hash_loop_state.
  - unfold context_at. by destruct (vector_at _ _).
Qed.

Lemma push_back_loop_frame n i right t :
  m_log2_root_size (push_back_loop n i right t).2 = m_log2_root_size t ∧
  m_log2_leaf_size (push_back_loop n i right t).2 = m_log2_leaf_size t ∧
  m_leaf_count (push_back_loop n i right t).2 = m_leaf_count t ∧
  m_max_leaves (push_back_loop n i right t).2 = m_max_leaves t ∧
  m_pristine_hashes (push_back_loop n i right t).2 = m_pristine_hashes t ∧
  length (m_context (push_back_loop n i right t).2) = length (m_context t) ∧
  (∃ j : nat, ∀ k : nat, k ≠ j →
     m_context (push_back_loop n i right t).2 !! k = m_context t !! k) ∧
  (∀ e, (push_back_loop n i right t).1 = inl e → (push_back_loop n i right t).2 = t).
Proof.
  revert i right. induction n as [|n IH]; intros i right.
  - simpl. repeat split; try done. by exists 0%nat.
  - rewrite push_back_loop_S. destruct (bit_set _ _).
    + destruct (vector_at _ _); [apply IH|].
      simpl. repeat split; try done. by exists 0%nat.
    + unfold context_store. destruct (vector_at _ _); simpl.
      * rewrite length_insert. repeat split; try done.
        exists (Z.to_nat i). intros k Hk. by apply list_lookup_insert_ne.
      * repeat split; try done. by exists 0%nat.
Qed.

(** X2. [push_back] touches nothing but the context and the leaf count:
    the sizes, the capacity and the pristine table stay, the context
    keeps its length and changes in at most one entry; a call that
    fails, for whatever reason, leaves the whole tree as it was, and a
    call that returns has incremented the leaf count. *)
Theorem push_back_frame leaf t :
  m_log2_root_size (push_back leaf t).2 = m_log2_root_size t ∧
  m_log2_leaf_size (push_back leaf t).2 = m_log2_leaf_size t ∧
  m_max_leaves (push_back leaf t).2 = m_max_leaves t ∧
  m_pristine_hashes (push_back leaf t).2 = m_pristine_hashes t ∧
  length (m_context (push_back leaf t).2) = length (m_context t) ∧
  (∃ j : nat, ∀ k : nat, k ≠ j →
     m_context (push_back leaf t).2 !! k = m_context t !! k) ∧
  match (push_back leaf t).1 with
  | inl _ => (push_back leaf t).2 = t
  | inr _ => m_leaf_count (push_back leaf t).2 = wrap (m_leaf_count t + 1)
  end.
Proof.
  rewrite push_back_unfold. case_decide.
  { simpl. repeat split; try done. by exists 0%nat. }
  pose proof (push_back_loop_frame
                (Z.to_nat (m_log2_root_size t - m_log2_leaf_size t + 1)) 0 leaf t)
    as (Hr & Hl & Hc & Hm & Hp & Hlen & Hone & Hfail).
  destruct (push_back_loop _ _ _ _) as [[e|[]] t1]; simpl in *.
  - repeat split; try done. by apply (Hfail e).
  - rewrite Hc. by repeat split.
Qed.

(** *** Entries of the context at clear bits *)

Lemma vector_at_insert_ne context (i : nat) h j :
  j ≠ Z.of_nat i → vector_at (<[i := h]> context) j = vector_at context j.
Proof.
  intros Hj. unfold vector_at. case_decide; [|done].
  apply list_lookup_insert_ne. lia.
Qed.

Lemma get_root_hash_loop_stale n j root t (i : nat) h :
  bit_set (m_leaf_count t) (Z.of_nat i) = false →
  (get_root_hash_loop n j root (set_context (<[i := h]> (m_context t)) t)).1 =
  (get_root_hash_loop n j root t).1.
Proof.
  intros Hbit. revert j root. induction n as [|n IH]; intros j root; [done|].
  rewrite !get_root_hash_loop_S. simpl.
  destruct (bit_set (m_leaf_count t) j) eqn:Hj.
  - rewrite vector_at_insert_ne by (intros ->; congruence).
    destruct (vector_at _ _); [apply IH|done].
  - destruct (get_hash _ _); [done|apply IH].
Qed.

(** X7. [get_root_hash] on a tree that is not full never reads the entry
    of the context at a clear bit of the leaf count: whatever is stored
    there, the call returns the same. *)
Theorem stale_context_unread t (i : nat) h :
  bit_set (m_leaf_count t) (Z.of_nat i) = false →
  m_leaf_count t < m_max_leaves t →
  (get_root_hash (set_context (<[i := h]> (m_context t)) t)).1 = (get_root_hash t).1.
Proof.
  intros Hbit Hlt. rewrite !get_root_hash_unfold. simpl.
  destruct (_ && _); [done|]. rewrite !decide_True by done.
  destruct (get_hash _ _); [done|]. by apply get_root_hash_loop_stale.
Qed.

(** *** The spine, block by block *)

Lemma tracks_push_all_inv t done leaves t' :
  tracks t done → push_all leaves t = (inr tt, t') → tracks t' (done ++ leaves).
Proof.
  revert t done. induction leaves as [|leaf leaves IH]; intros t done Ht; cbn [push_all].
  - intros [= <-]. by rewrite app_nil_r.
  - unfold bind. destruct (decide (m_leaf_count t < m_max_leaves t)) as [Hlt|Hge].
    + destruct (tracks_push t done leaf Ht Hlt) as (context' & -> & Ht').
      intros Hrest. apply (IH _ _ Ht') in Hrest. by rewrite <- app_assoc in Hrest.
    + by rewrite push_back_full by lia.
Qed.

Lemma spine_blocks p context k i m leaves :
  0 ≤ m →
  spine p context k i m leaves →
  length leaves = (Z.to_nat m * 2 ^ i)%nat ∧
  ∀ j : nat, (j < k)%nat → Z.testbit m (Z.of_nat j) = true →
    (2 ^ (i + j + 1) * Z.to_nat (m / 2 ^ Z.of_nat (S j)) + 2 ^ (i + j) ≤ length leaves)%nat ∧
    context !! (i + j)%nat =
      Some (subtree_hash p (i + j)
              (take (2 ^ (i + j))
                 (drop (2 ^ (i + j + 1) * Z.to_nat (m / 2 ^ Z.of_nat (S j))) leaves))).
Proof.
  revert i m leaves. induction k as [|k IH]; intros i m leaves Hm.
  - intros [-> ->]. split; [done|]. intros j Hj. lia.
  - rewrite spine_S.
    assert (0 ≤ Z.div2 m) as Hm2 by (by apply Z.div2_nonneg).
    pose proof (Z.div2_odd m) as Hdiv.
    assert (∀ j : nat, m / 2 ^ Z.of_nat (S (S j)) = Z.div2 m / 2 ^ Z.of_nat (S j)) as Hshift.
    { intros j. rewrite Z.div2_div, Z.div_div by (try apply Z.pow_pos_nonneg; lia).
      f_equal. rewrite (Nat2Z.inj_succ (S j)), Z.pow_succ_r by lia. done. }
    assert (∀ j : nat, Z.testbit m (Z.of_nat (S j)) = Z.testbit (Z.div2 m) (Z.of_nat j)) as Hbits.
    { intros j. rewrite Z.div2_spec, Z.shiftr_spec by lia. f_equal. lia. }
    destruct (Z.odd m) eqn:Hodd; simpl in Hdiv.
    + intros (older & block & -> & Hblock & Hctx & Hs).
      destruct (IH _ _ _ Hm2 Hs) as [Hlen Hup].
      assert (length older = (2 ^ (i + 1) * Z.to_nat (Z.div2 m))%nat) as Hlen'.
      { rewrite Hlen. replace (i + 1)%nat with (S i) by lia. lia. }
      split.
      { rewrite length_app, Hlen, Hblock.
        replace (Z.to_nat m) with (2 * Z.to_nat (Z.div2 m) + 1)%nat by lia.
        simpl. lia. }
      intros [|j] Hj Hbit.
      * rewrite !Nat.add_0_r. change (2 ^ Z.of_nat 1) with 2.
        rewrite <- Z.div2_div, <- Hlen'. rewrite length_app, Hblock. split; [lia|].
        rewrite drop_app_length, take_ge by lia. done.
      * rewrite Hbits in Hbit. destruct (Hup j) as [Hle Hlook]; [lia|done|].
        rewrite Hshift. replace (i + S j)%nat with (S i + j)%nat by lia.
        split; [rewrite length_app; lia|].
        rewrite Hlook. do 2 f_equal.
        rewrite drop_app_le by lia. rewrite take_app_le; [done|].
        rewrite length_drop. lia.
    + intros Hs. destruct (IH _ _ _ Hm2 Hs) as [Hlen Hup]. split.
      { rewrite Hlen. replace (Z.to_nat m) with (2 * Z.to_nat (Z.div2 m))%nat by lia.
        simpl. lia. }
      intros [|j] Hj Hbit.
      * rewrite Z.bit0_odd in Hbit. congruence.
      * rewrite Hbits in Hbit. destruct (Hup j) as [Hle Hlook]; [lia|done|].
        rewrite Hshift. by replace (i + S j)%nat with (S i + j)%nat by lia.
Qed.

Lemma testbit_lt_pow2 m (k j : nat) :
  0 ≤ m → m < 2 ^ Z.of_nat k → Z.testbit m (Z.of_nat j) = true → (j < k)%nat.
Proof.
  intros Hm Hlt Hbit. destruct (decide (j < k)%nat) as [|Hge]; [done|].
  exfalso. assert (m / 2 ^ Z.of_nat j = 0) as Hz.
  { apply Z.div_small. split; [done|].
    apply Z.lt_le_trans with (2 ^ Z.of_nat k); [done|].
    apply Z.pow_le_mono_r; lia. }
  rewrite Z.testbit_eqb, Hz in Hbit by lia. done.
Qed.

(** X1. The spine invariant: after a tree is constructed and [leaves] are
    pushed, for every bit [i] set in the leaf count the context holds at
    [i] the root of the full subtree over the last [2^i] leaves that end
    at a multiple of [2^i], that is the [2^i] leaves from position
    [(leaf_count >> (i+1)) << (i+1)] on. *)
Theorem spine_invariant r l w t0 leaves t (i : nat) :
  back_merkle_tree_new r l w = inr t0 →
  push_all leaves t0 = (inr tt, t) →
  Z.testbit (m_leaf_count t) (Z.of_nat i) = true →
  m_leaf_count t = Z.of_nat (length leaves) ∧
  is_Some (m_context t !! i) ∧
  m_context t !! i =
    merkle_root i
      (take (2 ^ i) (drop (2 ^ (i + 1) * (length leaves / 2 ^ (i + 1))) leaves)).
Proof.
  intros Hnew Hall Hbit.
  pose proof (tracks_push_all_inv t0 [] leaves t (tracks_new _ _ _ _ Hnew) Hall)
    as (Hwf & Hcount & Hs).
  rewrite app_nil_l in Hcount, Hs. split; [done|].
  pose proof (wf_count t Hwf) as Hcnt. pose proof (wf_max_leaves t Hwf) as Hmax.
  destruct (spine_blocks _ _ _ _ _ _ (proj1 Hcnt) Hs) as [_ Hblocks].
  assert (i < S (depth t))%nat as Hi.
  { apply (testbit_lt_pow2 (m_leaf_count t)); [lia| |done].
    rewrite Nat2Z.inj_succ, Z.pow_succ_r by lia.
    assert (0 < 2 ^ Z.of_nat (depth t)) by (apply Z.pow_pos_nonneg; lia). lia. }
  destruct (Hblocks i Hi Hbit) as [Hle Hlook]. simpl in Hle, Hlook.
  assert (Z.to_nat (m_leaf_count t / 2 ^ Z.of_nat (S i)) =
          (length leaves / 2 ^ (i + 1))%nat) as Hoff.
  { rewrite Hcount. replace (S i) with (i + 1)%nat by lia.
    change 2 with (Z.of_nat 2). rewrite <- Nat2Z.inj_pow, <- Nat2Z.inj_div.
    apply Nat2Z.id. }
  rewrite Hoff in Hle, Hlook. rewrite Hlook. split; [done|].
  symmetry. apply merkle_root_full.
  rewrite length_take, length_drop. lia.
Qed.

(** *** Capacity *)

Lemma push_all_app leaves1 leaves2 t :
  push_all (leaves1 ++ leaves2) t =
  (let* _ := push_all leaves1 in push_all leaves2) t.
Proof.
  revert t. induction leaves1 as [|leaf leaves1 IH]; intros t; [done|].
  cbn [app push_all]. unfold bind at 1. unfold bind at 1 2.
  destruct (push_back leaf t) as [[e|[]] t1]; [done|]. apply IH.
Qed.

(** X3. A constructed tree takes [2^(log2_root_size - log2_leaf_size)]
    leaves and no more: pushing a longer list pushes its first
    [max_leaves] leaves, then fails with the error of a full tree, and
    leaves the tree full, its root the root of the tree over exactly
    those leaves. *)
Theorem capacity r l w t0 leaves :
  back_merkle_tree_new r l w = inr t0 →
  m_max_leaves t0 < Z.of_nat (length leaves) →
  m_max_leaves t0 = 2 ^ (r - l) ∧
  ∃ t root,
    push_all (take (Z.to_nat (m_max_leaves t0)) leaves) t0 = (inr tt, t) ∧
    push_all leaves t0 = (inl (out_of_range "too many leaves"), t) ∧
    m_leaf_count t = m_max_leaves t0 ∧
    get_root_hash t = (inr root, t) ∧
    merkle_root (Z.to_nat (r - l)) (take (Z.to_nat (m_max_leaves t0)) leaves) = Some root.
Proof.
  intros Hnew Hlen.
  pose proof (tracks_new _ _ _ _ Hnew) as Ht0. pose proof Ht0 as (Hwf0 & _).
  destruct (new_fields _ _ _ _ Hnew) as (Hr & Hl & _ & _).
  pose proof (wf_depth t0 Hwf0) as Hd. pose proof (wf_max_leaves t0 Hwf0) as Hmax.
  split; [rewrite (wf_max t0 Hwf0); congruence|].
  assert (Z.to_nat (m_max_leaves t0) = (2 ^ depth t0)%nat) as HN.
  { rewrite Hmax. change 2 with (Z.of_nat 2). rewrite <- Nat2Z.inj_pow. apply Nat2Z.id. }
  assert (0 < 2 ^ Z.of_nat (depth t0)) as Hpos by (apply Z.pow_pos_nonneg; lia).
  set (N := Z.to_nat (m_max_leaves t0)) in *.
  assert (length (take N leaves) = N) as Htake by (rewrite length_take; lia).
  destruct (tracks_push_all t0 [] (take N leaves) Ht0)
    as (t & Hall & Ht & Hm & Hdt & _ & _ & _); [simpl; lia|].
  simpl in Ht. pose proof Ht as (_ & Hcount & _).
  exists t, (subtree_hash (pristine_leaf t) (depth t) (take N leaves)).
  split; [done|]. split; [|split; [lia|split]].
  - rewrite <- (take_drop N leaves) at 1. rewrite push_all_app. unfold bind. rewrite Hall.
    destruct (drop N leaves) as [|leaf rest] eqn:Hdrop.
    { apply (f_equal length) in Hdrop. rewrite length_drop in Hdrop. simpl in Hdrop. lia. }
    cbn [push_all]. unfold bind. by rewrite push_back_full by lia.
  - by apply get_root_hash_tracks.
  - replace (Z.to_nat (r - l)) with (depth t) by (unfold depth in *; lia).
    apply merkle_root_full. by rewrite Htake, HN, Hdt.
Qed.

(** *** The siblings of the next-leaf proof *)

Lemma get_next_leaf_proof_loop_siblings (n i : nat) proof h t proof' h' t' :
  wf t →
  (i + n = depth t)%nat →
  log2_target_size proof = m_log2_leaf_size t →
  length (sibling_hashes proof) = depth t →
  get_next_leaf_proof_loop n (Z.of_nat i) proof h t = (inr (proof', h'), t') →
  ∀ j : nat, (i ≤ j < depth t)%nat →
    sibling_hashes proof' !! j =
      if Z.testbit (m_leaf_count t) (Z.of_nat j) then m_context t !! j
      else Some (subtree_hash (pristine_leaf t) j []).
Proof.
  intros Hwf. pose proof (wf_depth t Hwf) as Hd. pose proof (wf_root t Hwf) as Hroot.
  pose proof (wf_word t Hwf) as Hword. pose proof (wf_context t Hwf) as Hctx.
  revert i proof h. induction n as [|n IH]; intros i proof h Hi Htarget Hlen Hrun j Hj;
    [lia|].
  rewrite get_next_leaf_proof_loop_S, bit_set_testbit in Hrun by lia.
  rewrite <- Htarget in Hrun.
  replace (Z.of_nat i + 1) with (Z.of_nat (S i)) in Hrun by lia.
  destruct (Z.testbit (m_leaf_count t) (Z.of_nat i)) eqn:Hbit.
  - rewrite vector_at_nat in Hrun.
    destruct (m_context t !! i) as [lhs|] eqn:Hlhs; [|done].
    rewrite set_sibling_hash_level in Hrun by lia.
    destruct (decide (j = i)) as [->|Hne].
    + edestruct (get_next_leaf_proof_loop_spec n (S i)) as (p2 & h2 & Hrun2 & _ & _ & _ & _ & _ & _ & Hlow & _);
        [done|lia| | |rewrite Hrun2 in Hrun].
      * simpl. done.
      * simpl. by rewrite length_insert.
      * injection Hrun as <- <- <-. rewrite Hlow by lia. simpl.
        rewrite Hbit, Hlhs. apply list_lookup_insert_eq. lia.
    + eapply (IH (S i)); [lia| | |exact Hrun|lia]; simpl; [done|by rewrite length_insert].
  - rewrite Htarget, wf_pristine_level in Hrun by (try done; lia).
    rewrite <- Htarget in Hrun. rewrite set_sibling_hash_level in Hrun by lia.
    destruct (decide (j = i)) as [->|Hne].
    + edestruct (get_next_leaf_proof_loop_spec n (S i)) as (p2 & h2 & Hrun2 & _ & _ & _ & _ & _ & _ & Hlow & _);
        [done|lia| | |rewrite Hrun2 in Hrun].
      * simpl. done.
      * simpl. by rewrite length_insert.
      * injection Hrun as <- <- <-. rewrite Hlow by lia. simpl.
        rewrite Hbit. apply list_lookup_insert_eq. lia.
    + eapply (IH (S i)); [lia| | |exact Hrun|lia]; simpl; [done|by rewrite length_insert].
Qed.

Lemma get_next_leaf_proof_inv t proof :
  wf t →
  get_next_leaf_proof t = (inr proof, t) →
  m_leaf_count t < m_max_leaves t ∧
  target_address proof = Z.shiftl (m_leaf_count t) (m_log2_leaf_size t) ∧
  log2_target_size proof = m_log2_leaf_size t ∧
  log2_root_size proof = m_log2_root_size t ∧
  length (sibling_hashes proof) = depth t ∧
  ∀ j : nat, (j < depth t)%nat →
    sibling_hashes proof !! j =
      if Z.testbit (m_leaf_count t) (Z.of_nat j) then m_context t !! j
      else Some (subtree_hash (pristine_leaf t) j []).
Proof.
  intros Hwf Hrun. pose proof (wf_depth t Hwf) as Hd.
  assert (m_leaf_count t < m_max_leaves t) as Hlt.
  { destruct (decide (m_leaf_count t < m_max_leaves t)) as [|Hge]; [done|].
    revert Hrun. unfold get_next_leaf_proof, bind, gets, throw.
    by rewrite decide_True by lia. }
  split; [done|].
  destruct (next_target_address t Hwf Hlt) as [Hwrap _].
  pose proof (wf_pristine_level t 0 Hwf) as Hp. rewrite Z.add_0_r in Hp.
  revert Hrun. unfold get_next_leaf_proof, bind, gets, throw, ret, pristine_hash_at.
  rewrite decide_False by lia. rewrite Hp by lia.
  replace (Z.to_nat (m_log2_root_size t - m_log2_leaf_size t)) with (depth t) by lia.
  set (proof0 :=
    set_target_hash (subtree_hash (pristine_leaf t) 0 [])
      (set_target_address (wrap (Z.shiftl (m_leaf_count t) (m_log2_leaf_size t)))
         (proof_new (m_log2_root_size t) (m_log2_leaf_size t)))).
  assert (length (sibling_hashes proof0) = depth t) as Hlen0.
  { simpl. rewrite length_replicate. unfold depth. lia. }
  destruct (get_next_leaf_proof_loop_spec (depth t) 0 proof0
              (subtree_hash (pristine_leaf t) 0 []) t)
    as (proof' & h' & Hloop & _ & Ha & _ & Hts & Hrs & Hlen & _ & _);
    [done|lia|done|done|].
  pose proof (get_next_leaf_proof_loop_siblings (depth t) 0 proof0 _ t proof' h' t
                Hwf ltac:(lia) eq_refl Hlen0 Hloop) as Hsib.
  change (Z.of_nat 0) with 0 in Hloop. rewrite Hloop. cbn [fst snd].
  assert (set_root_hash h' proof' = proof →
          target_address proof = Z.shiftl (m_leaf_count t) (m_log2_leaf_size t) ∧
          log2_target_size proof = m_log2_leaf_size t ∧
          log2_root_size proof = m_log2_root_size t ∧
          length (sibling_hashes proof) = depth t ∧
          ∀ j : nat, (j < depth t)%nat →
            sibling_hashes proof !! j =
              if Z.testbit (m_leaf_count t) (Z.of_nat j) then m_context t !! j
              else Some (subtree_hash (pristine_leaf t) j [])) as Hdone.
  { intros <-. simpl. rewrite Ha, Hts, Hrs. simpl. rewrite Hwrap.
    do 4 (split; [done|]). intros j Hj. apply Hsib. lia. }
  destruct NDEBUG; [|destruct (verify _)]; intros [= Heq]; auto.
Qed.

(** X5. The next-leaf proof of a reachable tree has one sibling per level
    between leaf and root: at a set bit of the leaf count the entry of
    the context at that level, at a clear bit the pristine hash of that
    level; its sizes are the tree's. *)
Theorem next_leaf_proof_siblings t proof :
  reachable t →
  get_next_leaf_proof t = (inr proof, t) →
  log2_target_size proof = m_log2_leaf_size t ∧
  log2_root_size proof = m_log2_root_size t ∧
  Z.of_nat (length (sibling_hashes proof)) = m_log2_root_size t - m_log2_leaf_size t ∧
  ∀ j : nat, (j < length (sibling_hashes proof))%nat →
    ∃ s, sibling_hashes proof !! j = Some s ∧
         if bit_set (m_leaf_count t) (Z.of_nat j)
         then context_at (Z.of_nat j) t = (inr s, t)
         else pristine_hash_at (m_log2_leaf_size t + Z.of_nat j) t = (inr s, t).
Proof.
  intros Hreach Hrun. pose proof (reachable_wf t Hreach) as Hwf.
  pose proof (wf_depth t Hwf) as Hd. pose proof (wf_root t Hwf) as Hroot.
  pose proof (wf_word t Hwf) as Hword. pose proof (wf_context t Hwf) as Hctx.
  destruct (get_next_leaf_proof_inv t proof Hwf Hrun) as (_ & _ & Hts & Hrs & Hlen & Hsib).
  do 2 (split; [done|]). split; [lia|].
  intros j Hj. rewrite Hlen in Hj. rewrite (Hsib j Hj), bit_set_testbit by lia.
  destruct (Z.testbit _ _).
  - unfold context_at. rewrite vector_at_nat.
    destruct (m_context t !! j) as [s|] eqn:E; [by exists s|].
    apply lookup_ge_None in E. lia.
  - eexists. split; [done|]. unfold pristine_hash_at.
    by rewrite wf_pristine_level by (try done; lia).
Qed.

(** *** The next-leaf proof and the leaf pushed next *)

Lemma fold_siblings_spine (n i : nat) siblings part leaves t :
  wf t →
  (i + n = depth t)%nat →
  0 ≤ m_leaf_count t →
  Z.shiftr (m_leaf_count t) (Z.of_nat i) < 2 ^ Z.of_nat n →
  spine (pristine_leaf t) (m_context t) (S n) i
        (Z.shiftr (m_leaf_count t) (Z.of_nat i)) leaves →
  (length part ≤ 2 ^ i)%nat →
  (∀ j : nat, (i ≤ j < depth t)%nat →
     siblings !! j =
       if Z.testbit (m_leaf_count t) (Z.of_nat j) then m_context t !! j
       else Some (subtree_hash (pristine_leaf t) j [])) →
  length siblings = depth t →
  fold_siblings (Z.of_nat i) (m_leaf_count t) (drop i siblings)
    (subtree_hash (pristine_leaf t) i part) =
  subtree_hash (pristine_leaf t) (depth t) (leaves ++ part).
Proof.
  intros Hwf. revert i part leaves.
  induction n as [|n IH]; intros i part leaves Hi Hc Hm Hs Hpart Hsib Hlen;
    assert (0 ≤ Z.shiftr (m_leaf_count t) (Z.of_nat i)) as Hm0
      by (by apply Z.shiftr_nonneg);
    rewrite spine_S in Hs.
  - assert (Z.shiftr (m_leaf_count t) (Z.of_nat i) = 0) as Hz
      by (change (2 ^ Z.of_nat 0) with 1 in Hm; lia).
    rewrite Hz in Hs. destruct Hs as [_ ->].
    rewrite Nat.add_0_r in Hi. subst i. by rewrite drop_ge by lia.
  - assert (Z.shiftr (m_leaf_count t) (Z.of_nat (S i)) < 2 ^ Z.of_nat n) as Hm'.
    { replace (Z.of_nat (S i)) with (Z.of_nat i + 1) by lia.
      rewrite shiftr_succ by lia. by apply div2_lt_pow2. }
    rewrite <- shiftr_succ in Hs by lia.
    replace (Z.of_nat i + 1) with (Z.of_nat (S i)) in Hs by lia.
    pose proof (Hsib i ltac:(lia)) as Hi'.
    rewrite testbit_shiftr_odd in Hi' by lia.
    destruct (Z.odd (Z.shiftr (m_leaf_count t) (Z.of_nat i))) eqn:Hodd.
    + destruct Hs as (older & blk & -> & Hblk & Hctx & Hs).
      rewrite Hctx in Hi'. rewrite (drop_S _ _ _ Hi'). cbn [fold_siblings].
      rewrite testbit_shiftr_odd, Hodd by lia.
      replace (Z.of_nat i + 1) with (Z.of_nat (S i)) by lia.
      rewrite <- subtree_hash_app by done.
      rewrite (IH (S i) (blk ++ part) older); try done.
      * by rewrite <- app_assoc.
      * lia.
      * rewrite length_app, Hblk. simpl. lia.
      * intros j Hj. apply Hsib. lia.
    + rewrite (drop_S _ _ _ Hi'). cbn [fold_siblings].
      rewrite testbit_shiftr_odd, Hodd by lia.
      replace (Z.of_nat i + 1) with (Z.of_nat (S i)) by lia.
      rewrite <- subtree_hash_short by done.
      rewrite (IH (S i) part leaves); try done.
      * lia.
      * simpl. lia.
      * intros j Hj. apply Hsib. lia.
Qed.

(** X4. The next-leaf proof is the proof of the leaf pushed next: on a
    reachable tree, the proof returned before a [push_back], with the
    pushed leaf as its target hash and the root read after the push as
    its root hash, verifies. *)
Theorem proof_of_pushed_leaf t proof leaf t' :
  reachable t →
  get_next_leaf_proof t = (inr proof, t) →
  push_back leaf t = (inr tt, t') →
  ∃ root',
    get_root_hash t' = (inr root', t') ∧
    verify (set_root_hash root' (set_target_hash leaf proof)) = true.
Proof.
  intros Hreach Hproof Hpush.
  destruct (reachable_tracks t Hreach) as [leaves Ht].
  pose proof Ht as (Hwf & Hcount & Hs).
  pose proof (wf_depth t Hwf) as Hd. pose proof (wf_max_leaves t Hwf) as Hmax.
  pose proof (wf_count t Hwf) as Hcnt.
  destruct (get_next_leaf_proof_inv t proof Hwf Hproof)
    as (Hlt & Ha & Hts & _ & Hlen & Hsib).
  destruct (next_target_address t Hwf Hlt) as [_ Hshift].
  destruct (tracks_push t leaves leaf Ht Hlt) as (context' & Hrun & Ht').
  rewrite Hrun in Hpush. injection Hpush as <-.
  eexists. split; [by apply get_root_hash_tracks|].
  unfold verify. apply bool_decide_eq_true_2. simpl.
  rewrite Ha, Hts, Hshift.
  change (pristine_leaf (set_leaf_count _ _)) with (pristine_leaf t).
  change (depth (set_leaf_count _ _)) with (depth t).
  pose proof (fold_siblings_spine (depth t) 0 (sibling_hashes proof) [leaf] leaves t Hwf)
    as Hfold.
  change (Z.of_nat 0) with 0 in Hfold. rewrite Z.shiftr_0_r, drop_0 in Hfold.
  apply Hfold; try done; try lia.
  intros j Hj. apply Hsib. lia.
Qed.

End facts.

(** *** The properties on the example trees *)
Section witnesses.
Import Examples.
#[local] Existing Instance symbolic_hasher.
#[local] Existing Instance debug_build.

Lemma stale_context_unread_witness :
  bit_set (m_leaf_count tree_of_three) (Z.of_nat 2) = false ∧
  m_leaf_count tree_of_three < m_max_leaves tree_of_three ∧
  (get_root_hash
     (set_context (<[2%nat := Leaf 99]> (m_context tree_of_three)) tree_of_three)).1 =
  (get_root_hash tree_of_three).1.
Proof.
  split; [reflexivity|]. split; [simpl; lia|].
  apply (stale_context_unread tree_of_three 2 (Leaf 99)); [reflexivity|simpl; lia].
Defined.

Lemma spine_invariant_witness :
  back_merkle_tree_new 3 0 0 = inr empty_tree ∧
  push_all three_leaves empty_tree = (inr tt, tree_of_three) ∧
  Z.testbit (m_leaf_count tree_of_three) (Z.of_nat 1) = true ∧
  m_leaf_count tree_of_three = Z.of_nat (length three_leaves) ∧
  is_Some (m_context tree_of_three !! 1%nat) ∧
  m_context tree_of_three !! 1%nat =
    merkle_root 1
      (take (2 ^ 1) (drop (2 ^ (1 + 1) * (length three_leaves / 2 ^ (1 + 1))) three_leaves)).
Proof.
  split; [reflexivity|]. split; [reflexivity|]. split; [reflexivity|].
  apply (spine_invariant 3 0 0 empty_tree three_leaves tree_of_three 1); reflexivity.
Defined.

Lemma capacity_witness :
  back_merkle_tree_new 3 0 0 = inr empty_tree ∧
  m_max_leaves empty_tree < Z.of_nat (length (eight_leaves ++ [Leaf 8])) ∧
  m_max_leaves empty_tree = 2 ^ (3 - 0) ∧
  ∃ t root,
    push_all (take (Z.to_nat (m_max_leaves empty_tree)) (eight_leaves ++ [Leaf 8]))
      empty_tree = (inr tt, t) ∧
    push_all (eight_leaves ++ [Leaf 8]) empty_tree =
      (inl (out_of_range "too many leaves"), t) ∧
    m_leaf_count t = m_max_leaves empty_tree ∧
    get_root_hash t = (inr root, t) ∧
    merkle_root (Z.to_nat (3 - 0))
      (take (Z.to_nat (m_max_leaves empty_tree)) (eight_leaves ++ [Leaf 8])) = Some root.
Proof.
  split; [reflexivity|]. split; [simpl; lia|].
  apply (capacity 3 0 0 empty_tree (eight_leaves ++ [Leaf 8])); [reflexivity|simpl; lia].
Defined.

Lemma next_leaf_proof_siblings_witness :
  reachable tree_of_three ∧
  ∃ proof,
    get_next_leaf_proof tree_of_three = (inr proof, tree_of_three) ∧
    log2_target_size proof = m_log2_leaf_size tree_of_three ∧
    log2_root_size proof = m_log2_root_size tree_of_three ∧
    Z.of_nat (length (sibling_hashes proof)) =
      m_log2_root_size tree_of_three - m_log2_leaf_size tree_of_three ∧
    ∀ j : nat, (j < length (sibling_hashes proof))%nat →
      ∃ s, sibling_hashes proof !! j = Some s ∧
           if bit_set (m_leaf_count tree_of_three) (Z.of_nat j)
           then context_at (Z.of_nat j) tree_of_three = (inr s, tree_of_three)
           else pristine_hash_at (m_log2_leaf_size tree_of_three + Z.of_nat j)
                  tree_of_three = (inr s, tree_of_three).
Proof.
  split; [exact tree_of_three_reachable|].
  eexists. split; [vm_compute; reflexivity|].
  apply (next_leaf_proof_siblings tree_of_three);
    [exact tree_of_three_reachable|reflexivity].
Defined.

Lemma proof_of_pushed_leaf_witness :
  reachable tree_of_three ∧
  ∃ proof t',
    get_next_leaf_proof tree_of_three = (inr proof, tree_of_three) ∧
    push_back (Leaf 3) tree_of_three = (inr tt, t') ∧
    ∃ root',
      get_root_hash t' = (inr root', t') ∧
      verify (set_root_hash root' (set_target_hash (Leaf 3) proof)) = true.
Proof.
  split; [exact tree_of_three_reachable|].
  eexists. eexists. split; [vm_compute; reflexivity|]. split; [vm_compute; reflexivity|].
  apply (proof_of_pushed_leaf tree_of_three _ (Leaf 3));
    [exact tree_of_three_reachable|reflexivity|reflexivity].
Defined.

End witnesses.
End BackMerkleTreeMore.

(** ** More of the Lua bindings *)
Module CluaMachineMoreFacts.
Import CluaMachine CluaMachineMore.

Section facts.
Context `{!machine_c_api} `{!argument_checks}.















End facts.

(** *** The bindings on the small API *)
Section witnesses.
#[local] Existing Instance toy_api.
#[local] Existing Instance toy_checks.



End witnesses.
End CluaMachineMoreFacts.

(** ** The constructor of the Lua machine class *)
Module CluaMachineCtorFacts.
Import CluaMachine CluaMachineCtor.

Section facts.
Context `{!machine_c_api} `{!machine_lifecycle_api} `{!ctor_checks}.

(** [lua_settop(L, 3)] leaves three slots. *)
Lemma settop_slots (st : list ctor_value) :
  ∃ first second third,
    take 3 st ++ replicate (3 - length st) CNil = [first; second; third].
Proof.
  assert (length (take 3 st ++ replicate (3 - length st) CNil) = 3%nat) as Hlen.
  { rewrite length_app, length_take, length_replicate. lia. }
  destruct (take 3 st ++ replicate (3 - length st) CNil) as [|x [|y [|z [|? ?]]]];
    simpl in Hlen; try lia.
  by exists x, y, z.
Qed.

(** X10. The constructor of the machine class applies at most one
    function of the C API, once. Either it stops at an argument it
    rejects, with a Lua error and the state of the API untouched; or the
    state of the API after it is what [cm_create] returned, when the
    second argument is a table, on the JSON of the second and third
    arguments, and what [cm_load] returned otherwise, on the second
    argument read as a string and the JSON of the third; the pointer the
    function wrote is the one the userdata holds, in the fourth slot; a
    second argument read as a file name is left in its slot as a string.
    On the result zero the constructor returns one value, that userdata,
    on top of the three arguments; on any other result it raises the
    last error message of the API after the position of the caller,
    having pushed it on top of the userdata. *)
Theorem machine_ctor_outcome (w : ctor_world) out w' :
  machine_ctor w = (out, w') →
  (ctor_api w' = ctor_api w ∧
   ∃ msg, out = inl msg ∧ rejected_arguments (ctor_arguments w) msg) ∨
  (∃ r p,
     created_or_loaded (ctor_arguments w) (ctor_api w) r p (ctor_api w')
       (ctor_stack w' !! 1%nat) ∧
     ctor_stack w' !! 3%nat = Some (CManagedMachine p) ∧
     if decide (r = 0) then
       out = inr 1 ∧ last (ctor_stack w') = Some (CManagedMachine p) ∧
       length (ctor_stack w') = 4%nat
     else
       out = inl (luaL_where 1 +:+ cm_get_last_error_message (ctor_api w')) ∧
       last (ctor_stack w') =
         Some (CString (luaL_where 1 +:+ cm_get_last_error_message (ctor_api w')))).
Proof.
  destruct w as [st a].
  destruct (settop_slots st) as (x & y & z & Hargs).
  unfold rejected_arguments, created_or_loaded, ctor_arguments.
  unfold machine_ctor, bind, ctor_settop, modify, ctor_push_to, clua_value_to_json,
    luaL_checkstring, cm_call_machine, ctor_last_error, ctor_error, gets, ret,
    with_ctor_stack.
  cbn [ctor_stack ctor_api fst snd].
  change (Z.to_nat 3) with 3%nat. rewrite Hargs. clear Hargs st.
  cbn [app length].
  destruct (clua_value_to_json_at [x; y; z; CManagedMachine None] 3)
    as [e|runtime_config] eqn:Hrc.
  { intros [= <- <-]. left. simpl. eauto. }
  cbn [ctor_stack ctor_api fst snd].
  destruct (is_table_at [x; y; z; CManagedMachine None] 2) eqn:Htab;
    cbn [ctor_stack ctor_api fst snd].
  - destruct (clua_value_to_json_at [x; y; z; CManagedMachine None] 2)
      as [e|config] eqn:Hconfig.
    { intros [= <- <-]. left. simpl. eauto 10. }
    cbn [ctor_stack ctor_api fst snd lookup list_lookup length].
    destruct (cm_create config runtime_config None a) as [[r p] a'] eqn:Hcall.
    cbn [fst snd].
    case_decide as Hr; intros [= <- <-]; right; exists r, p; simpl.
    + rewrite decide_False by done. eauto 10.
    + assert (r = 0) as -> by (destruct (decide (r = 0)); [done|by destruct Hr]).
      rewrite decide_True by done. eauto 10.
  - change (Z.to_nat (2 - 1)) with 1%nat.
    cbn [lookup list_lookup].
    destruct (lua_tolstring y) as [filename|] eqn:Hfile.
    2:{ intros [= <- <-]. left. simpl. split; [done|]. eexists. split; [done|].
        right. right. by rewrite Hfile. }
    cbn [ctor_stack ctor_api fst snd lookup list_lookup length insert list_insert].
    destruct (cm_load filename runtime_config None a) as [[r p] a'] eqn:Hcall.
    cbn [fst snd].
    case_decide as Hr; intros [= <- <-]; right; exists r, p; simpl.
    + rewrite decide_False by done. rewrite Hfile. eauto 10.
    + assert (r = 0) as -> by (destruct (decide (r = 0)); [done|by destruct Hr]).
      rewrite decide_True by done. rewrite Hfile. eauto 10.
Qed.

End facts.

(** *** The constructor on the small API *)
Section witnesses.
#[local] Existing Instance toy_api.
#[local] Existing Instance toy_lifecycle.
#[local] Existing Instance toy_ctor_checks.

(** A refused runtime configuration: the message is raised, and pushed
    on top of the userdata, whose pointer is still null. *)
Lemma machine_ctor_refused :
  machine_ctor ctor_refused =
    (inl "machine.lua:1: empty runtime configuration", after_ctor_refused).
Proof. reflexivity. Qed.

Lemma machine_ctor_outcome_witness :
  machine_ctor ctor_with_number = (inr 1, after_ctor_with_number) ∧
  ((ctor_api after_ctor_with_number = ctor_api ctor_with_number ∧
    ∃ msg, @inr string Z 1 = inl msg ∧
           rejected_arguments (ctor_arguments ctor_with_number) msg) ∨
   (∃ r p,
      created_or_loaded (ctor_arguments ctor_with_number) (ctor_api ctor_with_number)
        r p (ctor_api after_ctor_with_number)
        (ctor_stack after_ctor_with_number !! 1%nat) ∧
      ctor_stack after_ctor_with_number !! 3%nat = Some (CManagedMachine p) ∧
      if decide (r = 0) then
        @inr string Z 1 = inr 1 ∧
        last (ctor_stack after_ctor_with_number) = Some (CManagedMachine p) ∧
        length (ctor_stack after_ctor_with_number) = 4%nat
      else
        @inr string Z 1 =
          inl (luaL_where 1 +:+
               cm_get_last_error_message (ctor_api after_ctor_with_number)) ∧
        last (ctor_stack after_ctor_with_number) =
          Some (CString (luaL_where 1 +:+
                         cm_get_last_error_message (ctor_api after_ctor_with_number))))).
Proof.
  split; [reflexivity|].
  apply (machine_ctor_outcome ctor_with_number (inr 1) after_ctor_with_number).
  reflexivity.
Defined.

End witnesses.
End CluaMachineCtorFacts.
